(** * language-babel: the tagged-template grammar generator

    A shallow embedding of [lib/create-ttl-grammar.js] (class
    [CreateTtlGrammar]) and the properties of it that the design
    document states.

    Conventions of the embedding.
    - A JavaScript string is a [string]: the sequence of bytes of its
      UTF-8 encoding.  Every character the source inspects (the colon,
      the double quote, the backslash, the hash sign, the
      regular-expression metacharacters, the class of word characters)
      is ASCII, and an ASCII byte never occurs inside a multi-byte
      UTF-8 sequence, so the operations below agree with the
      JavaScript ones on the encoded text.
    - A function that throws returns a [result]: [Throw e] or [Ok v].
    - The host ([atom], [fs], timers) is explicit state: the grammar
      directory, the registry slot, the timer table and a trace of the
      calls made to the host. *)

From Stdlib Require Import ZArith Lia Ascii String Bool.
From stdpp Require Import base option list gmap strings.

Local Open Scope string_scope.
Local Open Scope list_scope.

(** ** Characters and strings as JavaScript uses them *)

Module Js.

Definition chr (n : nat) : ascii := ascii_of_nat n.

Definition dquote : ascii := chr 34.
Definition backslash : ascii := chr 92.
Definition newline : ascii := chr 10.

Definition str (c : ascii) : string := String c EmptyString.

(** [s.length] *)
Definition length (s : string) : Z := Z.of_nat (String.length s).

(** [s.lastIndexOf(c)]: the index of the last occurrence, or [-1]. *)
Fixpoint lastIndexOf_from (c : ascii) (s : string) (i : Z) (found : Z) : Z :=
  match s with
  | EmptyString => found
  | String a s' =>
      lastIndexOf_from c s' (i + 1) (if Ascii.eqb a c then i else found)
  end.

Definition lastIndexOf (c : ascii) (s : string) : Z :=
  lastIndexOf_from c s 0 (-1).

(** [s.substring(a, b)]: both indices are clamped to [0 .. s.length]
    and swapped when [a > b]. *)
Definition clamp (s : string) (i : Z) : Z := Z.max 0 (Z.min i (length s)).

Definition substring (s : string) (a b : Z) : string :=
  let lo := Z.min (clamp s a) (clamp s b) in
  let hi := Z.max (clamp s a) (clamp s b) in
  String.substring (Z.to_nat lo) (Z.to_nat (hi - lo)) s.

(** [s.substring(a)] *)
Definition substring_from (s : string) (a : Z) : string :=
  substring s a (length s).

(** [s.replace(/[class]/g, f($&))]: every character of the class is
    replaced, left to right, by [f] of itself. *)
Fixpoint replace_class (cls : ascii -> bool) (f : ascii -> string)
    (s : string) : string :=
  match s with
  | EmptyString => EmptyString
  | String a s' =>
      (if cls a then f a else str a) +:+ replace_class cls f s'
  end.

(** [arr.join(",")], which is what a template literal applies to an
    interpolated array. *)
Fixpoint join (sep : string) (l : list string) : string :=
  match l with
  | [] => EmptyString
  | [x] => x
  | x :: l' => x +:+ sep +:+ join sep l'
  end.

(** Template text is written with an apostrophe where the program
    has a double quote. *)
Definition quoted (s : string) : string :=
  replace_class (Ascii.eqb (chr 39)) (fun _ => str dquote) s.

End Js.

(** ** SHA-256 ([crypto.createHash('sha256')])

    The digest is Node's, not the package's: it is written here after
    FIPS 180-4, on byte strings, with 32-bit words as integers that are
    masked after each addition and shift. *)

Module Sha256.

Local Open Scope Z_scope.

Definition mask32 : Z := 4294967295.
Definition w32 (x : Z) : Z := Z.land x mask32.
Definition add32 (x y : Z) : Z := w32 (x + y).
Definition rotr (n x : Z) : Z :=
  Z.lor (Z.shiftr x n) (w32 (Z.shiftl x (32 - n))).
Definition not32 (x : Z) : Z := Z.lxor x mask32.

Definition ch (x y z : Z) : Z := Z.lxor (Z.land x y) (Z.land (not32 x) z).
Definition maj (x y z : Z) : Z :=
  Z.lxor (Z.lxor (Z.land x y) (Z.land x z)) (Z.land y z).
Definition bsig0 (x : Z) : Z :=
  Z.lxor (Z.lxor (rotr 2 x) (rotr 13 x)) (rotr 22 x).
Definition bsig1 (x : Z) : Z :=
  Z.lxor (Z.lxor (rotr 6 x) (rotr 11 x)) (rotr 25 x).
Definition ssig0 (x : Z) : Z :=
  Z.lxor (Z.lxor (rotr 7 x) (rotr 18 x)) (Z.shiftr x 3).
Definition ssig1 (x : Z) : Z :=
  Z.lxor (Z.lxor (rotr 17 x) (rotr 19 x)) (Z.shiftr x 10).

(** Round constants and initial state (fractional parts of the cube
    and square roots of the first primes), in decimal. *)
Definition round_constants : list Z :=
  [ 1116352408; 1899447441; 3049323471; 3921009573; 961987163; 1508970993;
    2453635748; 2870763221; 3624381080; 310598401; 607225278; 1426881987;
    1925078388; 2162078206; 2614888103; 3248222580; 3835390401; 4022224774;
    264347078; 604807628; 770255983; 1249150122; 1555081692; 1996064986;
    2554220882; 2821834349; 2952996808; 3210313671; 3336571891; 3584528711;
    113926993; 338241895; 666307205; 773529912; 1294757372; 1396182291;
    1695183700; 1986661051; 2177026350; 2456956037; 2730485921; 2820302411;
    3259730800; 3345764771; 3516065817; 3600352804; 4094571909; 275423344;
    430227734; 506948616; 659060556; 883997877; 958139571; 1322822218;
    1537002063; 1747873779; 1955562222; 2024104815; 2227730452; 2361852424;
    2428436474; 2756734187; 3204031479; 3329325298 ].

Definition initial_state : list Z :=
  [ 1779033703; 3144134277; 1013904242; 2773480762;
    1359893119; 2600822924; 528734635; 1541459225 ].

Definition bytes_of_string (s : string) : list Z :=
  map (fun a => Z.of_nat (nat_of_ascii a)) (list_ascii_of_string s).

(** Big-endian bytes of [x], [n] of them. *)
Fixpoint be_bytes (n : nat) (x : Z) : list Z :=
  match n with
  | O => []
  | S n' => be_bytes n' (Z.shiftr x 8) ++ [Z.land x 255]
  end.

(** Message padding: a [1] bit, zeros up to 56 mod 64, the bit length
    on eight bytes. *)
Definition pad (msg : list Z) : list Z :=
  let len := Z.of_nat (List.length msg) in
  let zeros := Z.to_nat ((55 - len) mod 64) in
  msg ++ [128] ++ repeat 0 zeros ++ be_bytes 8 (8 * len).

Fixpoint words_of_bytes (n : nat) (bs : list Z) : list Z :=
  match n, bs with
  | S n', a :: b :: c :: d :: bs' =>
      (((a * 256 + b) * 256 + c) * 256 + d) :: words_of_bytes n' bs'
  | _, _ => []
  end.

Definition nthw (l : list Z) (i : nat) : Z := nth i l 0.

(** Message schedule: [ws] holds the words computed so far in reverse
    (the latest first). *)
Fixpoint schedule (n : nat) (ws : list Z) : list Z :=
  match n with
  | O => ws
  | S n' =>
      let x := add32 (add32 (ssig1 (nthw ws 1)) (nthw ws 6))
                     (add32 (ssig0 (nthw ws 14)) (nthw ws 15)) in
      schedule n' (x :: ws)
  end.

Definition round (st : list Z) (kw : Z * Z) : list Z :=
  match st with
  | [a; b; c; d; e; f; g; h] =>
      let t1 := add32 (add32 (add32 h (bsig1 e)) (add32 (ch e f g) (fst kw)))
                      (snd kw) in
      let t2 := add32 (bsig0 a) (maj a b c) in
      [add32 t1 t2; a; b; c; add32 d t1; e; f; g]
  | _ => st
  end.

Definition compress (st : list Z) (block : list Z) : list Z :=
  let ws := rev (schedule 48 (rev (words_of_bytes 16 block))) in
  let st' := fold_left round (combine round_constants ws) st in
  map (fun p => add32 (fst p) (snd p)) (combine st st').

Fixpoint blocks (n : nat) (bs : list Z) : list (list Z) :=
  match n with
  | O => []
  | S n' =>
      match bs with
      | [] => []
      | _ => firstn 64 bs :: blocks n' (skipn 64 bs)
      end
  end.

Definition digest (msg : list Z) : list Z :=
  let p := pad msg in
  let st := fold_left compress (blocks (List.length p) p) initial_state in
  flat_map (be_bytes 4) st.

Definition hex_digit (x : Z) : ascii :=
  if x <? 10 then ascii_of_nat (Z.to_nat (48 + x))
  else ascii_of_nat (Z.to_nat (87 + x)).

Fixpoint hex (bs : list Z) : string :=
  match bs with
  | [] => EmptyString
  | b :: bs' =>
      String (hex_digit (Z.shiftr b 4))
        (String (hex_digit (Z.land b 15)) (hex bs'))
  end.

(** [hash.update(s); hash.digest('hex')] *)
Definition hexdigest (s : string) : string := hex (digest (bytes_of_string s)).

End Sha256.


(** ** Regular expressions

    The patterns of the source use only character classes, sequence,
    alternative, option and iteration, so [RegExp.prototype.test]
    decides membership in a regular language.  Matching is by
    derivatives. *)

Module Regex.

Inductive t : Type :=
| Empty                      (* matches nothing *)
| Eps                        (* matches the empty string *)
| Chr (cls : ascii -> bool)  (* one character of a class *)
| Seq (r1 r2 : t)
| Alt (r1 r2 : t)
| Star (r : t).

Definition Opt (r : t) : t := Alt r Eps.

Fixpoint nullable (r : t) : bool :=
  match r with
  | Empty => false
  | Eps => true
  | Chr _ => false
  | Seq r1 r2 => nullable r1 && nullable r2
  | Alt r1 r2 => nullable r1 || nullable r2
  | Star _ => true
  end.

(** Constructors that drop the dead branches a derivative leaves. *)
Definition seq (r1 r2 : t) : t :=
  match r1 with
  | Empty => Empty
  | Eps => r2
  | _ => Seq r1 r2
  end.

Definition alt (r1 r2 : t) : t :=
  match r1, r2 with
  | Empty, _ => r2
  | _, Empty => r1
  | _, _ => Alt r1 r2
  end.

Fixpoint deriv (a : ascii) (r : t) : t :=
  match r with
  | Empty => Empty
  | Eps => Empty
  | Chr cls => if cls a then Eps else Empty
  | Seq r1 r2 =>
      if nullable r1 then alt (seq (deriv a r1) r2) (deriv a r2)
      else seq (deriv a r1) r2
  | Alt r1 r2 => alt (deriv a r1) (deriv a r2)
  | Star r1 => seq (deriv a r1) (Star r1)
  end.

Fixpoint matches (r : t) (s : string) : bool :=
  match s with
  | EmptyString => nullable r
  | String a s' => matches (deriv a r) s'
  end.

Definition any : t := Chr (fun _ => true).

(** [/^r$/.test(s)] *)
Definition test_anchored (r : t) (s : string) : bool := matches r s.

(** [/r/.test(s)]: some substring of [s] matches. *)
Definition test (r : t) (s : string) : bool :=
  matches (Seq (Star any) (Seq r (Star any))) s.

(** The language of a pattern, as a relation. *)
Inductive lang : t -> string -> Prop :=
| lang_eps : lang Eps EmptyString
| lang_chr cls a : cls a = true -> lang (Chr cls) (String a EmptyString)
| lang_seq r1 r2 s1 s2 :
    lang r1 s1 -> lang r2 s2 -> lang (Seq r1 r2) (s1 +:+ s2)
| lang_alt_l r1 r2 s : lang r1 s -> lang (Alt r1 r2) s
| lang_alt_r r1 r2 s : lang r2 s -> lang (Alt r1 r2) s
| lang_star_nil r : lang (Star r) EmptyString
| lang_star_cons r a s1 s2 :
    lang r (String a s1) -> lang (Star r) s2 ->
    lang (Star r) (String a s1 +:+ s2).

(** Character classes of the source. *)
Definition in_range (lo hi : N) (c : ascii) : bool :=
  (lo <=? N_of_ascii c)%N && (N_of_ascii c <=? hi)%N.

(** [[a-zA-Z]] *)
Definition alpha (c : ascii) : bool := in_range 97 122 c || in_range 65 90 c.

(** [\w] *)
Definition word (c : ascii) : bool :=
  alpha c || in_range 48 57 c || Ascii.eqb c (Js.chr 95).

Definition char (x : ascii) (c : ascii) : bool := Ascii.eqb c x.

Definition one_of (xs : string) (c : ascii) : bool :=
  existsb (Ascii.eqb c) (list_ascii_of_string xs).

(** [.]: any character but a line terminator (LF, CR, U+2028,
    U+2029).  On UTF-8 text the last two are the byte sequences
    E2 80 A8 and E2 80 A9. *)
Definition dot : t :=
  Alt (Chr (fun c => negb (char (Js.chr 10) c || char (Js.chr 13) c
                           || char (Js.chr 226) c)))
      (Seq (Chr (char (Js.chr 226)))
           (Alt (Chr (fun c => negb (char (Js.chr 128) c)))
                (Seq (Chr (char (Js.chr 128)))
                     (Chr (fun c => negb (char (Js.chr 168) c
                                          || char (Js.chr 169) c)))))).

End Regex.

(** ** Errors and results *)

(** The three [throw new Error(...)] sites of [createGrammarPatterns],
    under the names the design document gives them, each with the
    values its message interpolates. *)
Inductive error : Type :=
| InvalidPatternSpec (ttlString : string)
| MalformedRegex (matchString : string) (err : string)
| InvalidLiteral (matchString : string).

Definition message (e : error) : string :=
  match e with
  | InvalidPatternSpec ttlString =>
      "Error in the Tagged Template Grammar String " +:+ ttlString
  | MalformedRegex matchString err =>
      "You entered an badly formed RegExp in the Tagged Template Grammar settings."
      +:+ Js.str Js.newline +:+ matchString +:+ Js.str Js.newline +:+ err
  | InvalidLiteral matchString =>
      "Bad literal string in the Tagged Template Grammar settings."
      +:+ Js.str Js.newline +:+ matchString
  end.

Inductive result (E A : Type) : Type :=
| Throw (e : E)
| Ok (v : A).
Arguments Throw {E A} e.
Arguments Ok {E A} v.

Definition is_ok {E A} (r : result E A) : bool :=
  match r with Ok _ => true | Throw _ => false end.

(** ** The regular-expression validator ([onigurumaCheck]) *)

(** An entry of [atom.grammars.grammars]: its [name] and, when
    [firstLineRegex.scanner.__proto__.constructor] is reachable and is
    a function, that constructor.  The constructor returns [Some err]
    when it throws on the pattern, [err] being the text of the
    exception. *)
Record Grammar : Type := {
  name : string;
  scannerConstructor : option (string -> option string)
}.

(** The callback of [atom.grammars.grammars.every]: the scan stops at
    the first grammar named Babel ES6 JavaScript. *)
Fixpoint onigurumaCheck_every (grammars : list Grammar) (regex : string)
    : result string bool :=
  match grammars with
  | [] => Ok false
  | obj :: rest =>
      if String.eqb (name obj) "Babel ES6 JavaScript" then
        match scannerConstructor obj with
        | Some ctor =>
            match ctor regex with
            | Some err => Throw err
            | None => Ok true
            end
        | None => Ok false
        end
      else onigurumaCheck_every rest regex
  end.

(** [grammars] is [None] when [typeof atom.grammars.grammars] is not
    [object], and the array otherwise. *)
Definition onigurumaCheck (grammars : option (list Grammar)) (regex : string)
    : result string bool :=
  match grammars with
  | Some gs => onigurumaCheck_every gs regex
  | None => Ok false
  end.

(** ** Compiling one rule ([createGrammarPatterns]) *)

Definition q : string -> string := Js.quoted.

Definition lines (l : list string) : string := Js.join (Js.str Js.newline) l.

(** The pattern tested on the scope reference, anchored at both ends.
    With SEG standing for [[a-zA-Z]\w*\.?] it reads: any number of
    SEG; then, optionally, [\w#] and any number of SEG; then [\w]. *)
Definition includeScopeRegExp : Regex.t :=
  let segment :=
    Regex.Seq (Regex.Chr Regex.alpha)
      (Regex.Seq (Regex.Star (Regex.Chr Regex.word))
                 (Regex.Opt (Regex.Chr (Regex.char ".")))) in
  Regex.Seq (Regex.Star segment)
    (Regex.Seq
       (Regex.Opt
          (Regex.Seq (Regex.Chr Regex.word)
             (Regex.Seq (Regex.Chr (Regex.char "#")) (Regex.Star segment))))
       (Regex.Chr Regex.word)).

(** The pattern that recognises a match string wrapped in double
    quotes: a quote, any run of [.], a quote. *)
Definition quotedMatchStringRegExp : Regex.t :=
  Regex.Seq (Regex.Chr (Regex.char Js.dquote))
    (Regex.Seq (Regex.Star Regex.dot) (Regex.Chr (Regex.char Js.dquote))).

(** [/[|{}()[\]^$+*?.]/g] *)
Definition escapeStringRegExp (c : ascii) : bool :=
  Regex.one_of "|{}()[]^$+*?." c.

(** [/\\/g] *)
Definition preEscapedSlash (c : ascii) : bool := Regex.char Js.backslash c.

Definition backslashes (n : nat) : string :=
  string_of_list_ascii (repeat Js.backslash n).

(** [s.replace(/\\\\[dq]/g, rep)]: each non-overlapping occurrence,
    left to right, of two backslashes and a double quote. *)
Fixpoint replace_escaped_quote (rep : string) (s : string) : string :=
  match s with
  | EmptyString => EmptyString
  | String x t =>
      match t with
      | String y (String z s') =>
          if Regex.char Js.backslash x && Regex.char Js.backslash y
             && Regex.char Js.dquote z
          then rep +:+ replace_escaped_quote rep s'
          else String x (replace_escaped_quote rep t)
      | _ => String x (replace_escaped_quote rep t)
      end
  end.

(** [s.match(/^[^#]*/)[0]]: the longest prefix without a hash sign. *)
Fixpoint match_before_hash (s : string) : string :=
  match s with
  | EmptyString => EmptyString
  | String a s' =>
      if Regex.char "#" a then EmptyString else String a (match_before_hash s')
  end.

(** The template literal that [createGrammarPatterns] returns, its
    three holes filled. *)
Definition patternText (contentName matchString includeScope : string) : string :=
  lines
    [ "{";
      q "      'contentName': '" +:+ contentName +:+ q "',";
      q "      'begin': '\\s*+(" +:+ matchString +:+ q ")\\s*(`)',";
      q "      'beginCaptures': {";
      q "        '1': { 'name': 'entity.name.tag.js' },";
      q "        '2': { 'name': 'punctuation.definition.quasi.begin.js' }";
      "      },";
      q "      'end': '\\s*(?<=[^\\\\]\\\\\\\\|[^\\\\]|^\\\\\\\\|^)((`))',";
      q "      'endCaptures': {";
      q "        '1': { 'name': 'punctuation.definition.quasi.end.js' }";
      "      },";
      q "      'patterns': [";
      q "        { 'include': 'source.js.jsx#literal-quasi-embedded' },";
      q "        { 'include': '" +:+ includeScope +:+ q "' }";
      "      ]";
      "    }" ].

(** The two branches that rewrite the match string. *)
Definition escapeRegExp (matchString : string) : string :=
  let matchString :=
    Js.replace_class preEscapedSlash (fun _ => backslashes 2) matchString in
  replace_escaped_quote (backslashes 3 +:+ Js.str Js.dquote) matchString.

Definition escapeLiteral (matchString : string) : string :=
  let matchString :=
    Js.replace_class preEscapedSlash (fun _ => backslashes 4) matchString in
  Js.replace_class escapeStringRegExp
    (fun c => backslashes 2 +:+ Js.str c) matchString.

Definition createGrammarPatterns (grammars : option (list Grammar))
    (ttlString : string) : result error string :=
  let lastColonIndex := Js.lastIndexOf ":" ttlString in
  let matchString := Js.substring ttlString 0 lastColonIndex in
  let includeScope := Js.substring_from ttlString (lastColonIndex + 1) in
  let isValidIncludeScope :=
    Regex.test_anchored includeScopeRegExp includeScope in
  let isQuotedMatchString :=
    Regex.test_anchored quotedMatchStringRegExp matchString in
  if (Js.length matchString <? 1)%Z || negb isValidIncludeScope then
    Throw (InvalidPatternSpec ttlString)
  else
    let rewritten :=
      if isQuotedMatchString then
        let matchString :=
          Js.substring matchString 1 (Js.length matchString - 1) in
        match onigurumaCheck grammars matchString with
        | Throw err => Throw (MalformedRegex matchString err)
        | Ok _ => Ok (escapeRegExp matchString)
        end
      else if Regex.test (Regex.Chr (Regex.char Js.dquote)) matchString then
        Throw (InvalidLiteral matchString)
      else Ok (escapeLiteral matchString) in
    match rewritten with
    | Throw e => Throw e
    | Ok matchString =>
        Ok (patternText (match_before_hash includeScope) matchString
              includeScope)
    end.

(** ** Building the document ([createGrammarText]) *)

Definition TTL_GRAMMAR_NAME : string := "language-babel-extension".
Definition TTL_SCOPENAME : string := "languagebabel.ttlextension".

(** [array.map(f)] for an [f] that may throw: the elements are visited
    in order and the first exception ends the traversal. *)
Fixpoint map_throwing {E A B} (f : A -> result E B) (l : list A)
    : result E (list B) :=
  match l with
  | [] => Ok []
  | x :: l' =>
      match f x with
      | Throw e => Throw e
      | Ok y =>
          match map_throwing f l' with
          | Throw e => Throw e
          | Ok ys => Ok (y :: ys)
          end
      end
  end.

Definition documentHead : string :=
  lines
    [ "{";
      q "  'name': '" +:+ TTL_GRAMMAR_NAME +:+ q "',";
      q "  'comment': 'Auto generated Tag Extensions for language-babel',";
      q "  'comment': 'Please do not edit this file directly',";
      q "  'scopeName': '" +:+ TTL_SCOPENAME +:+ q "',";
      q "  'fileTypes': [],";
      q "  'patterns': [";
      "    " ].

Definition documentTail : string :=
  lines [ ""; "  ]"; "}" ].

(** [ttlConfig] is what [getTtlConfig()] returns. *)
Definition createGrammarText (grammars : option (list Grammar))
    (ttlConfig : list string) : result error string :=
  match map_throwing (createGrammarPatterns grammars) ttlConfig with
  | Throw e => Throw e
  | Ok patterns => Ok (documentHead +:+ Js.join "," patterns +:+ documentTail)
  end.

(** ** The host: file system, grammar registry, notifications

    [files] maps the absolute path of every regular file to its text.
    [registered] is the path of the grammar loaded for
    [TTL_SCOPENAME], if any.  [trace] lists, oldest first, the calls
    made to the host. *)

Inductive event : Type :=
| FsAccess (path : string)
| FsReaddir (dir : string)
| FsUnlink (path : string)
| FsWriteFile (path text : string)
| RemoveGrammarForScopeName (scopeName : string)
| LoadGrammar (path : string)
| AddInfo (detail : string)
| AddWarning (detail : string)
| ConfigGet (value : list string).

Record World : Type := {
  packagePath : string;
  files : gmap string string;
  registered : option string;
  trace : list event
}.

Definition log (e : event) (w : World) : World :=
  {| packagePath := packagePath w; files := files w;
     registered := registered w; trace := trace w ++ [e] |}.

Definition set_files (f : gmap string string) (w : World) : World :=
  {| packagePath := packagePath w; files := f;
     registered := registered w; trace := trace w |}.

Definition set_registered (r : option string) (w : World) : World :=
  {| packagePath := packagePath w; files := files w;
     registered := r; trace := trace w |}.

(** How the host answers.  For the calls whose error the source
    inspects ([fs.readdir], [fs.writeFile], [loadGrammar]): the text
    of the error, if there is one.  For [fs.unlink], which the source
    calls without a callback: [unlink_throws] is the message of the
    exception that a runtime throws at such a call (Node.js from
    version 10 on: a TypeError, the callback must be a function),
    [None] for a runtime that takes the call; [unlink_fails] tells
    for which paths a request that was taken does not delete the
    file. *)
Record Faults : Type := {
  readdir_error : option string;
  unlink_throws : option string;
  unlink_fails : string -> bool;
  writeFile_error : option string;
  loadGrammar_error : bool
}.

Definition no_faults : Faults :=
  {| readdir_error := None; unlink_throws := None;
     unlink_fails := fun _ => false; writeFile_error := None;
     loadGrammar_error := false |}.

(** A computation on the host that may fail with an [Error]; the value
    it carries is the error's [message]. *)
Definition Host (A : Type) : Type := World -> result string A * World.

Definition ret {A} (x : A) : Host A := fun w => (Ok x, w).
Definition bind {A B} (m : Host A) (k : A -> Host B) : Host B :=
  fun w =>
    match m w with
    | (Ok x, w') => k x w'
    | (Throw msg, w') => (Throw msg, w')
    end.
Definition call (e : event) : Host unit := fun w => (Ok tt, log e w).

#[global] Instance host_ret : MRet Host := @ret.
#[global] Instance host_bind : MBind Host := fun A B k m => bind m k.

(** *** Paths *)

(** [path.resolve(dir, name)] for an absolute, normalised [dir] and a
    plain entry name. *)
Definition path_resolve (dir name : string) : string := dir +:+ "/" +:+ name.

Definition getGrammarPath (w : World) : string :=
  path_resolve (packagePath w) "grammars".

Definition generateTtlSHA256 (stringToHash : string) : string :=
  Sha256.hexdigest stringToHash.

Definition makeTtlGrammarFilename (hashString : string) : string :=
  "ttl-" +:+ hashString +:+ ".json".

Definition makeTtlGrammarFilenameAbsoulute (w : World) (ttlFilename : string)
    : string :=
  path_resolve (getGrammarPath w) ttlFilename.

(** *** File-system primitives *)

Fixpoint strip_prefix (p s : string) : option string :=
  match p, s with
  | EmptyString, _ => Some s
  | String a p', String b s' =>
      if Ascii.eqb a b then strip_prefix p' s' else None
  | String _ _, EmptyString => None
  end.

Definition starts_with (p s : string) : bool :=
  match strip_prefix p s with Some _ => true | None => false end.

Definition has_char (c : ascii) (s : string) : bool :=
  existsb (Ascii.eqb c) (list_ascii_of_string s).

(** The entry of [dir] that the file at [path] is, if it lies directly
    in [dir]. *)
Definition entry_of (dir path : string) : option string :=
  match strip_prefix (dir +:+ "/") path with
  | Some n => if has_char "/" n then None else Some n
  | None => None
  end.

(** [fs.readdir(dir)] *)
Definition readdir (dir : string) (fs : gmap string string) : list string :=
  omap (entry_of dir) (map_to_list fs).*1.

(** [/^ttl-/.test(filename)] *)
Definition is_ttl (filename : string) : bool := starts_with "ttl-" filename.

(** ** Publishing ([createGrammar] and what it calls)

    A promise chain is run to its settlement in one step; the
    callbacks of one chain are not interleaved with another chain. *)

Definition doesGrammarFileExist (ttlFilename : string) : Host bool :=
  fun w =>
    let path := makeTtlGrammarFilenameAbsoulute w ttlFilename in
    (Ok (bool_decide (is_Some (files w !! path))), log (FsAccess path) w).

Definition getGrammarFiles (fl : Faults) : Host (list string) :=
  fun w =>
    let w' := log (FsReaddir (getGrammarPath w)) w in
    match readdir_error fl with
    | Some err => (Throw err, w')
    | None => (Ok (readdir (getGrammarPath w) (files w)), w')
    end.

Definition getTtlGrammarFiles (fl : Faults) : Host (list string) :=
  dirFiles ← getGrammarFiles fl; ret (filter (fun f => is_ttl f) dirFiles).

Definition removeGrammars : Host unit :=
  fun w =>
    (Ok tt, set_registered None (log (RemoveGrammarForScopeName TTL_SCOPENAME) w)).

(** [fs.unlink(path)] is called without a callback, so the source
    neither waits for the deletion nor learns whether it failed.  A
    runtime that insists on the callback throws at the call and
    leaves the file alone.  Otherwise the request is taken and the
    promise chain is told nothing: the file goes unless the host
    fails to delete it, and then it stays (an older runtime throws
    the error from its own callback, outside the chain).  The world
    after the call is the world once the host has dealt with the
    request; the requests of one clean-up are for different paths,
    and none is for the path written next, so the order in which the
    host deals with them makes no difference. *)
Definition unlink (fl : Faults) (path : string) : Host unit :=
  fun w =>
    let w' := log (FsUnlink path) w in
    match unlink_throws fl with
    | Some msg => (Throw msg, w')
    | None =>
        (Ok tt,
         if unlink_fails fl path then w'
         else set_files (delete path (files w')) w')
    end.

Fixpoint for_of {A} (l : list A) (body : A -> Host unit) : Host unit :=
  match l with
  | [] => ret tt
  | x :: l' => body x;; for_of l' body
  end.

Definition removeTtlLanguageFiles (fl : Faults) : Host unit :=
  ttlGrammarFiles ← getTtlGrammarFiles fl;
  for_of ttlGrammarFiles (fun ttlGrammarFilename w =>
    let ttlGrammarFileAbsoulte :=
      makeTtlGrammarFilenameAbsoulute w ttlGrammarFilename in
    unlink fl ttlGrammarFileAbsoulte w).

Definition createGrammarFile (fl : Faults) (filename text : string)
    : Host unit :=
  fun w =>
    let w' := log (FsWriteFile filename text) w in
    match writeFile_error fl with
    | Some err => (Throw err, w')
    | None => (Ok tt, set_files (<[filename := text]> (files w')) w')
    end.

Definition addGrammars (fl : Faults) (filename : string) : Host unit :=
  fun w =>
    let w' := log (LoadGrammar filename) w in
    if loadGrammar_error fl then
      (Throw ("Unable to add Grammar to registry" +:+ Js.str Js.newline
              +:+ filename), w')
    else (Ok tt, set_registered (Some filename) w').

(** How the promise returned by [createGrammar] settles: resolved, with
    a file name or with [undefined], or rejected. *)
Inductive settled : Type :=
| Resolved (value : option string)
| Rejected (message : string).

(** The argument object of [createGrammar]. *)
Record GrammarRef : Type := {
  ttlFilename : string;
  ttlFilenameAbsolute : string;
  grammarText : string
}.

Definition createGrammar (fl : Faults) (_ref : GrammarRef)
    : World -> settled * World :=
  fun w =>
    match doesGrammarFileExist (ttlFilename _ref) w with
    | (Ok true, w) => (Resolved None, w)
    | (Ok false, w) =>
        let chain :=
          removeGrammars;;
          removeTtlLanguageFiles fl;;
          createGrammarFile fl (ttlFilenameAbsolute _ref) (grammarText _ref);;
          addGrammars fl (ttlFilenameAbsolute _ref);;
          call (AddInfo ("Grammar created at " +:+ Js.str Js.newline
                         +:+ ttlFilenameAbsolute _ref)) in
        match chain w with
        | (Ok _, w) => (Resolved (Some (ttlFilename _ref)), w)
        | (Throw msg, w) => (Rejected msg, log (AddWarning msg) w)
        end
    | (Throw msg, w) => (Rejected msg, w)
    end.

(** The argument that [observeTtlConfig] builds for a document text. *)
Definition grammarRef (w : World) (grammarText : string) : GrammarRef :=
  let hash := generateTtlSHA256 grammarText in
  let ttlFilename := makeTtlGrammarFilename hash in
  {| ttlFilename := ttlFilename;
     ttlFilenameAbsolute := makeTtlGrammarFilenameAbsoulute w ttlFilename;
     grammarText := grammarText |}.

(** Publishing a document: hash it, name it, create it. *)
Definition publish (fl : Faults) (grammarText : string)
    : World -> settled * World :=
  fun w => createGrammar fl (grammarRef w grammarText) w.

(** ** The debounce timer ([observeTtlConfig])

    Time is counted in milliseconds.  [timers] is the host's table of
    pending timeouts, each an identifier and the instant it is due;
    every timeout of this class runs the same callback, the arrow
    function of [observeTtlConfig].  [configChangedTimer] is the field
    of the instance: [None] for [null], otherwise the handle that
    [setTimeout] returned (a truthy value). *)

Record State : Type := {
  world : World;
  registry_grammars : option (list Grammar);
  taggedTemplateGrammar : list string;
  faults : Faults;
  now : nat;
  nextTimer : nat;
  timers : list (nat * nat);
  configChangedTimer : option nat
}.

Definition set_world (w : World) (st : State) : State :=
  {| world := w; registry_grammars := registry_grammars st;
     taggedTemplateGrammar := taggedTemplateGrammar st; faults := faults st;
     now := now st; nextTimer := nextTimer st; timers := timers st;
     configChangedTimer := configChangedTimer st |}.

Definition set_config (c : list string) (st : State) : State :=
  {| world := world st; registry_grammars := registry_grammars st;
     taggedTemplateGrammar := c; faults := faults st;
     now := now st; nextTimer := nextTimer st; timers := timers st;
     configChangedTimer := configChangedTimer st |}.

Definition set_clock (t next : nat) (ts : list (nat * nat)) (st : State)
    : State :=
  {| world := world st; registry_grammars := registry_grammars st;
     taggedTemplateGrammar := taggedTemplateGrammar st; faults := faults st;
     now := t; nextTimer := next; timers := ts;
     configChangedTimer := configChangedTimer st |}.

Definition set_configChangedTimer (h : option nat) (st : State) : State :=
  {| world := world st; registry_grammars := registry_grammars st;
     taggedTemplateGrammar := taggedTemplateGrammar st; faults := faults st;
     now := now st; nextTimer := nextTimer st; timers := timers st;
     configChangedTimer := h |}.

(** [setTimeout(callback, delay)]: a delay below one millisecond counts
    as one. *)
Definition setTimeout (delay : nat) (st : State) : nat * State :=
  let id := nextTimer st in
  (id, set_clock (now st) (S id)
         (timers st ++ [(id, now st + Nat.max 1 delay)]) st).

(** [clearTimeout(id)] *)
Definition clearTimeout (id : nat) (st : State) : State :=
  set_clock (now st) (nextTimer st)
    (filter (fun t => negb (Nat.eqb t.1 id)) (timers st)) st.

(** The callback: build, hash, name, publish; an exception becomes a
    warning.  The promise of [createGrammar] is dropped. *)
Definition configChanged (st : State) : State :=
  let ttlConfig := taggedTemplateGrammar st in
  let w := log (ConfigGet ttlConfig) (world st) in
  match createGrammarText (registry_grammars st) ttlConfig with
  | Ok grammarText =>
      set_world (createGrammar (faults st) (grammarRef w grammarText) w).2 st
  | Throw err => set_world (log (AddWarning (message err)) w) st
  end.

Definition observeTtlConfig (timeout : nat) (st : State) : State :=
  let st :=
    match configChangedTimer st with
    | Some id => clearTimeout id st
    | None => st
    end in
  let '(id, st) := setTimeout timeout st in
  set_configChangedTimer (Some id) st.

(** One millisecond passes: the timeouts that are due leave the table
    and their callbacks run, in the order they were set. *)
Definition due (t : nat) (timer : nat * nat) : bool := Nat.leb timer.2 t.

Definition tick (st : State) : State :=
  let t := S (now st) in
  let fired := filter (fun x => due t x) (timers st) in
  let pending := filter (fun x => negb (due t x)) (timers st) in
  foldl (fun st _ => configChanged st)
    (set_clock t (nextTimer st) pending st) fired.

(** What happens to an instance: the configuration observer calls
    [observeTtlConfig], the user edits the setting, time passes. *)
Inductive input : Type :=
| Observe (timeout : nat)
| SetConfig (value : list string)
| Tick.

Definition step (st : State) (i : input) : State :=
  match i with
  | Observe timeout => observeTtlConfig timeout st
  | SetConfig value => set_config value st
  | Tick => tick st
  end.

Definition run (inputs : list input) (st : State) : State :=
  foldl step st inputs.

Definition is_observe (i : input) : bool :=
  match i with Observe _ => true | _ => false end.

Definition is_tick (i : input) : bool :=
  match i with Tick => true | _ => false end.

(** No call of the scheduler among the inputs. *)
Definition quiet (inputs : list input) : Prop :=
  forallb (fun i => negb (is_observe i)) inputs = true.

(** The milliseconds that pass during the inputs. *)
Definition elapsed (inputs : list input) : nat :=
  length (filter (fun i => is_tick i) inputs).

(** The configuration snapshots the callbacks have read. *)
Definition config_reads (tr : list event) : list (list string) :=
  omap (fun e => match e with ConfigGet v => Some v | _ => None end) tr.

(** * Notions used by the statements *)

(** ** Rules *)

(** The two parts of a rule, as [createGrammarPatterns] cuts them. *)
Definition matchExpr (ttlString : string) : string :=
  Js.substring ttlString 0 (Js.lastIndexOf ":" ttlString).

Definition scopeRef (ttlString : string) : string :=
  Js.substring_from ttlString (Js.lastIndexOf ":" ttlString + 1).

(** The text of a pattern object, member by member: [contentName],
    [begin] with the match expression between its parentheses, the
    fixed captures and [end], and the two [include] members, the
    second with the scope reference. *)
Definition member (key value : string) : string :=
  Js.str Js.dquote +:+ key +:+ Js.str Js.dquote +:+ ": "
  +:+ Js.str Js.dquote +:+ value +:+ Js.str Js.dquote.

Definition pattern_object (contentName matchString includeScope : string)
    : string :=
  lines
    [ "{";
      "      " +:+ member "contentName" contentName +:+ ",";
      "      " +:+ member "begin" ("\\s*+(" +:+ matchString +:+ ")\\s*(`)")
        +:+ ",";
      q "      'beginCaptures': {";
      q "        '1': { 'name': 'entity.name.tag.js' },";
      q "        '2': { 'name': 'punctuation.definition.quasi.begin.js' }";
      "      },";
      "      "
        +:+ member "end" "\\s*(?<=[^\\\\]\\\\\\\\|[^\\\\]|^\\\\\\\\|^)((`))"
        +:+ ",";
      q "      'endCaptures': {";
      q "        '1': { 'name': 'punctuation.definition.quasi.end.js' }";
      "      },";
      q "      'patterns': [";
      "        { " +:+ member "include" "source.js.jsx#literal-quasi-embedded"
        +:+ " },";
      "        { " +:+ member "include" includeScope +:+ " }";
      "      ]";
      "    }" ].

(** A rule in literal form: a match expression that is not empty and
    not wrapped in double quotes, with a valid scope reference. *)
Definition literal_form (ttlString : string) : bool :=
  negb (Js.length (matchExpr ttlString) <? 1)%Z
  && Regex.test_anchored includeScopeRegExp (scopeRef ttlString)
  && negb (Regex.test_anchored quotedMatchStringRegExp (matchExpr ttlString)).

(** Following the words of the design document: a double quote that no
    backslash escapes, a backslash escaping the character after it. *)
Fixpoint has_unescaped_quote (s : string) : bool :=
  match s with
  | EmptyString => false
  | String a t =>
      if Regex.char Js.backslash a then
        match t with
        | String _ t' => has_unescaped_quote t'
        | EmptyString => false
        end
      else Regex.char Js.dquote a || has_unescaped_quote t
  end.

(** The rule whose match expression is [a], a backslash, a double
    quote, [b]. *)
Definition escaped_quote_rule : string := q "a\'b:source.example".

(** ** Escaping, and reading an escaped pattern back *)

Fixpoint flat_map_string (f : ascii -> string) (s : string) : string :=
  match s with
  | EmptyString => EmptyString
  | String a s' => f a +:+ flat_map_string f s'
  end.

(** What the two replacements amount to, character by character. *)
Definition literal_char_escape (c : ascii) : string :=
  if preEscapedSlash c then backslashes 4
  else if escapeStringRegExp c then backslashes 2 +:+ Js.str c
  else Js.str c.

(** The literal as a regular expression: a backslash before every
    backslash and every metacharacter. *)
Definition regex_char_quote (c : ascii) : string :=
  if preEscapedSlash c || escapeStringRegExp c
  then String Js.backslash (Js.str c)
  else Js.str c.

Definition regex_quote (s : string) : string :=
  flat_map_string regex_char_quote s.

(** Every backslash written twice, as a string of the document spells
    it. *)
Definition double_backslashes (s : string) : string :=
  flat_map_string
    (fun c => if preEscapedSlash c then backslashes 2 else Js.str c) s.

(** *** Reading the body of a JSON string

    A character below U+0020 may not stand unescaped in a JSON
    string. *)
Definition control (c : ascii) : bool := (N_of_ascii c <? 32)%N.

Definition control_free (s : string) : bool :=
  forallb (fun c => negb (control c)) (list_ascii_of_string s).

Definition hex_value (c : ascii) : option N :=
  let n := N_of_ascii c in
  if Regex.in_range 48 57 c then Some (n - 48)%N
  else if Regex.in_range 65 70 c then Some (n - 55)%N
  else if Regex.in_range 97 102 c then Some (n - 87)%N
  else None.

Definition hex4 (a b c d : ascii) : option N :=
  x ← hex_value a; y ← hex_value b; z ← hex_value c; t ← hex_value d;
  Some (((x * 16 + y) * 16 + z) * 16 + t)%N.

(** The UTF-8 encoding of a code point. *)
Definition utf8 (cp : N) : string :=
  let byte (n : N) := ascii_of_N n in
  let tail (n : N) := byte (128 + n mod 64)%N in
  if (cp <? 128)%N then Js.str (byte cp)
  else if (cp <? 2048)%N then
    String (byte (192 + cp / 64)%N) (Js.str (tail cp))
  else if (cp <? 65536)%N then
    String (byte (224 + cp / 4096)%N)
      (String (tail (cp / 64)%N) (Js.str (tail cp)))
  else
    String (byte (240 + cp / 262144)%N)
      (String (tail (cp / 4096)%N)
         (String (tail (cp / 64)%N) (Js.str (tail cp)))).

Definition high_surrogate (cp : N) : bool :=
  (55296 <=? cp)%N && (cp <? 56320)%N.

Definition low_surrogate (cp : N) : bool :=
  (56320 <=? cp)%N && (cp <? 57344)%N.

(** The string that the body of a JSON string (the text between its
    quotes) stands for, [None] when the text is not such a body: a
    bare double quote would end the string, a control character may
    not stand unescaped, a backslash starts one of the escapes of
    JSON.  An escape by code point gives the UTF-8 bytes of the code
    point, two of them that form a surrogate pair those of the code
    point of the pair; a surrogate without its partner has no UTF-8
    encoding and so no string of this embedding: [None] as well. *)
Fixpoint json_unescape (s : string) : option string :=
  match s with
  | EmptyString => Some EmptyString
  | String a t =>
      if Regex.char Js.backslash a then
        match t with
        | String b t' =>
            if Regex.char Js.dquote b || Regex.char Js.backslash b
               || Regex.char "/" b
            then String b <$> json_unescape t'
            else if Regex.char "b" b then String (Js.chr 8) <$> json_unescape t'
            else if Regex.char "f" b then String (Js.chr 12) <$> json_unescape t'
            else if Regex.char "n" b then String (Js.chr 10) <$> json_unescape t'
            else if Regex.char "r" b then String (Js.chr 13) <$> json_unescape t'
            else if Regex.char "t" b then String (Js.chr 9) <$> json_unescape t'
            else if Regex.char "u" b then
              match t' with
              | String h1 (String h2 (String h3 (String h4 t4))) =>
                  match hex4 h1 h2 h3 h4 with
                  | Some cp =>
                      if high_surrogate cp then
                        match t4 with
                        | String e (String u (String l1 (String l2
                            (String l3 (String l4 t6))))) =>
                            if Regex.char Js.backslash e && Regex.char "u" u
                            then
                              match hex4 l1 l2 l3 l4 with
                              | Some lo =>
                                  if low_surrogate lo then
                                    String.append
                                      (utf8 (65536 + (cp - 55296) * 1024
                                             + (lo - 56320))%N)
                                    <$> json_unescape t6
                                  else None
                              | None => None
                              end
                            else None
                        | _ => None
                        end
                      else if low_surrogate cp then None
                      else String.append (utf8 cp) <$> json_unescape t4
                  | None => None
                  end
              | _ => None
              end
            else None
        | EmptyString => None
        end
      else if Regex.char Js.dquote a then None
      else if control a then None
      else String a <$> json_unescape t
  end.

(** The text a regular expression matches when it is made of literal
    characters only: plain characters that are not metacharacters, and
    metacharacters or backslashes behind a backslash. *)
Fixpoint regex_literal (s : string) : option string :=
  match s with
  | EmptyString => Some EmptyString
  | String a t =>
      if Regex.char Js.backslash a then
        match t with
        | String b t' =>
            if Regex.char Js.backslash b || escapeStringRegExp b
            then String b <$> regex_literal t'
            else None
        | EmptyString => None
        end
      else if escapeStringRegExp a then None
      else String a <$> regex_literal t
  end.

(** ** Documents *)

(** A validator that accepts every pattern, in a registry that holds
    the Babel grammar. *)
Definition accepting_registry : option (list Grammar) :=
  Some [ {| name := "Babel ES6 JavaScript";
            scannerConstructor := Some (fun _ => None) |} ].

Definition sample_config : list string :=
  [ "tag1:source.alpha"; q "'\bsql\b':source.sql#query" ].

(** The text a configuration builds to (empty if it does not build). *)
Definition text_with (grammars : option (list Grammar))
    (ttlConfig : list string) : string :=
  match createGrammarText grammars ttlConfig with
  | Ok text => text
  | Throw _ => EmptyString
  end.

Definition text_of (ttlConfig : list string) : string :=
  text_with None ttlConfig.

Definition failing_config : list string :=
  [ "tag:source.js"; "bad scope:1nvalid.."; "nocolon" ].

(** The first four lines of every document. *)
Definition documentOpening : string :=
  lines
    [ "{";
      q "  'name': 'language-babel-extension',";
      q "  'comment': 'Auto generated Tag Extensions for language-babel',";
      q "  'comment': 'Please do not edit this file directly'," ].

(** How many times [needle] occurs in [hay]. *)
Fixpoint occurrences (needle hay : string) : nat :=
  match hay with
  | EmptyString => 0
  | String _ hay' =>
      (if starts_with needle hay then 1 else 0) + occurrences needle hay'
  end.

(** ** The grammar directory *)

(** The generated files in the grammar directory, as
    [getTtlGrammarFiles] lists them. *)
Definition ttl_files (w : World) : list string :=
  filter (fun f => is_ttl f) (readdir (getGrammarPath w) (files w)).

(** The directory holds at most one generated file. *)
Definition at_most_one_ttl (w : World) : Prop := length (ttl_files w) <= 1.

Definition unlink_all (dir : string) (names : list string)
    (fs : gmap string string) : gmap string string :=
  foldl (fun fs n => delete (path_resolve dir n) fs) fs names.

(** The generated files that a clean-up deletes when the runtime
    takes its calls: those the host does not fail to delete. *)
Definition deleted (fl : Faults) (w : World) : list string :=
  filter (fun n => negb (unlink_fails fl (path_resolve (getGrammarPath w) n)))
    (ttl_files w).

Definition after_unlink (fl : Faults) (w : World) : gmap string string :=
  unlink_all (getGrammarPath w) (deleted fl w) (files w).

(** The host carries out every deletion it takes. *)
Definition unlink_reliable (fl : Faults) : Prop :=
  forall path, unlink_fails fl path = false.

(** ** The steps of a publication

    The worlds a call of [createGrammar] goes through when the file is
    not there: after the check, the removal from the registry and the
    listing; where the clean-up stops when the runtime throws at its
    first call of [fs.unlink]; after the clean-up, after the write
    attempt, after the write and the load attempt, and at the end. *)
Definition listed (w : World) (_ref : GrammarRef) : World :=
  log (FsReaddir (getGrammarPath w))
    (set_registered None
       (log (RemoveGrammarForScopeName TTL_SCOPENAME)
          (log (FsAccess (makeTtlGrammarFilenameAbsoulute w (ttlFilename _ref)))
             w))).

Definition steps_listed (w : World) (_ref : GrammarRef) : list event :=
  [ FsAccess (makeTtlGrammarFilenameAbsoulute w (ttlFilename _ref));
    RemoveGrammarForScopeName TTL_SCOPENAME;
    FsReaddir (getGrammarPath w) ].

Definition unlink_refused (w : World) (_ref : GrammarRef) (n : string)
    : World :=
  log (FsUnlink (path_resolve (getGrammarPath w) n)) (listed w _ref).

Definition unlinked (fl : Faults) (w : World) (_ref : GrammarRef) : World :=
  {| packagePath := packagePath w;
     files := after_unlink fl w;
     registered := None;
     trace := trace (listed w _ref)
              ++ map (fun n => FsUnlink (path_resolve (getGrammarPath w) n))
                   (ttl_files w) |}.

Definition write_attempted (fl : Faults) (w : World) (_ref : GrammarRef)
    : World :=
  log (FsWriteFile (ttlFilenameAbsolute _ref) (grammarText _ref))
    (unlinked fl w _ref).

Definition load_attempted (fl : Faults) (w : World) (_ref : GrammarRef)
    : World :=
  log (LoadGrammar (ttlFilenameAbsolute _ref))
    (set_files
       (<[ttlFilenameAbsolute _ref := grammarText _ref]> (after_unlink fl w))
       (write_attempted fl w _ref)).

Definition created (fl : Faults) (w : World) (_ref : GrammarRef) : World :=
  log (AddInfo ("Grammar created at " +:+ Js.str Js.newline
                +:+ ttlFilenameAbsolute _ref))
    (set_registered (Some (ttlFilenameAbsolute _ref))
       (load_attempted fl w _ref)).

(** ** A fresh installation and two documents *)

Definition fresh_world : World :=
  {| packagePath := "/home/user/.atom/packages/language-babel";
     files := ∅; registered := None; trace := [] |}.

Definition textA : string := text_of [ "tag:source.example" ].
Definition textB : string := text_of [ "tag:source.example#sub" ].

Definition after_A : World := (publish no_faults textA fresh_world).2.

(** A host that fails to delete whatever it is asked to, and a
    runtime that throws at a call of [fs.unlink] without callback. *)
Definition stuck_unlink : Faults :=
  {| readdir_error := None; unlink_throws := None;
     unlink_fails := fun _ => true; writeFile_error := None;
     loadGrammar_error := false |}.

Definition strict_runtime : Faults :=
  {| readdir_error := None;
     unlink_throws := Some "Callback must be a function";
     unlink_fails := fun _ => false; writeFile_error := None;
     loadGrammar_error := false |}.

(** A directory that something else has written to: it holds the
    file of [textA] and a second file with the generated prefix. *)
Definition foreign_world : World :=
  {| packagePath := "/p";
     files :=
       <[ path_resolve "/p/grammars"
            (makeTtlGrammarFilename (generateTtlSHA256 textA)) := textA ]>
         {[ "/p/grammars/ttl-old.json" := "old" ]};
     registered := None; trace := [] |}.

(** ** Bursts of calls *)

(** Every pending timeout is the one the instance remembers. *)
Definition owned (st : State) : Prop :=
  forall t, t ∈ timers st -> configChangedTimer st = Some t.1.

(** [N] calls of the scheduler, each but the last followed by the
    inputs of a gap: [N] is the number of gaps plus one. *)
Definition burst (timeout : nat) (gaps : list (list input)) : list input :=
  flat_map (fun g => Observe timeout :: g) gaps ++ [Observe timeout].

(** A state that agrees with [st] on all that a callback reads or
    writes but the configuration. *)
Definition same_host (st st' : State) : Prop :=
  world st' = world st
  /\ registry_grammars st' = registry_grammars st
  /\ faults st' = faults st.

(** An instance as its constructor leaves it, in a fresh host. *)
Definition idle_state : State :=
  {| world := fresh_world; registry_grammars := None;
     taggedTemplateGrammar := [ "a:source.js" ]; faults := no_faults;
     now := 0; nextTimer := 1; timers := []; configChangedTimer := None |}.

(** Five calls with a quiet period of three milliseconds, the setting
    edited before each of the last four. *)
Definition five_gaps : list (list input) :=
  [ [ Tick; SetConfig [ "b:source.js" ] ];
    [ Tick; Tick; SetConfig [ "c:source.js" ] ];
    [ SetConfig [ "d:source.js" ] ];
    [ Tick; SetConfig [ "e:source.js" ] ] ].

(** After the fifth call: two milliseconds with one more edit, the
    third millisecond, and some more time. *)
Definition quiet_before : list input :=
  [ Tick; SetConfig [ "f:source.js" ]; Tick ].

Definition quiet_after : list input :=
  [ Tick; Tick; SetConfig [ "g:source.js" ]; Tick ].

(** * Notions used by the further properties *)

(** ** Rules *)

Definition string_forall (p : ascii -> bool) (s : string) : bool :=
  forallb p (list_ascii_of_string s).

(** The characters a scope reference may be made of: those of [\w],
    the dot and the hash sign. *)
Definition scope_char (c : ascii) : bool :=
  Regex.word c || Regex.char "." c || Regex.char "#" c.

(** Every character class of a pattern lies within [p]. *)
Fixpoint classes_within (p : ascii -> bool) (r : Regex.t) : Prop :=
  match r with
  | Regex.Empty | Regex.Eps => True
  | Regex.Chr cls => forall c, cls c = true -> p c = true
  | Regex.Seq r1 r2 | Regex.Alt r1 r2 =>
      classes_within p r1 /\ classes_within p r2
  | Regex.Star r1 => classes_within p r1
  end.

(** A string that begins with a character of [p]. *)
Definition first_char (p : ascii -> bool) (s : string) : Prop :=
  exists a t, s = String a t /\ p a = true.

(** ** Quoted match expressions *)

(** What the two replacements of the quoted branch amount to, read
    off the regular expression itself: a backslash and the double
    quote after it become three backslashes and the quote, any other
    backslash becomes two. *)
Fixpoint regexp_escape (m : string) : string :=
  match m with
  | EmptyString => EmptyString
  | String a t =>
      if Regex.char Js.backslash a then
        match t with
        | String b t' =>
            if Regex.char Js.dquote b
            then backslashes 3 +:+ Js.str Js.dquote +:+ regexp_escape t'
            else backslashes 2 +:+ regexp_escape t
        | EmptyString => backslashes 2
        end
      else String a (regexp_escape t)
  end.

(** Every double quote comes right after a backslash. *)
Fixpoint quotes_escaped_from (after_backslash : bool) (s : string) : bool :=
  match s with
  | EmptyString => true
  | String a t =>
      if Regex.char Js.dquote a
      then after_backslash && quotes_escaped_from false t
      else quotes_escaped_from (Regex.char Js.backslash a) t
  end.

Definition quotes_escaped (s : string) : bool := quotes_escaped_from false s.

(** A backslash and a double quote. *)
Definition escaped_quote : string :=
  String Js.backslash (String Js.dquote EmptyString).

(** ** The validator *)

(** The grammar [onigurumaCheck] looks for. *)
Definition is_babel (obj : Grammar) : bool :=
  String.eqb (name obj) "Babel ES6 JavaScript".

(** What the constructor of a Babel grammar answers, if it has one. *)
Definition scanner_verdict (obj : Grammar) (regex : string)
    : result string bool :=
  match scannerConstructor obj with
  | Some ctor =>
      match ctor regex with
      | Some err => Throw err
      | None => Ok true
      end
  | None => Ok false
  end.

(** No grammar of the registry is the Babel grammar. *)
Definition no_babel (grammars : option (list Grammar)) : Prop :=
  match grammars with
  | Some gs => forallb (fun g => negb (is_babel g)) gs = true
  | None => True
  end.

(** A rule in quoted form: a valid scope reference and a match
    expression wrapped in double quotes (which is then not empty). *)
Definition quoted_form (ttlString : string) : bool :=
  negb (Js.length (matchExpr ttlString) <? 1)%Z
  && Regex.test_anchored includeScopeRegExp (scopeRef ttlString)
  && Regex.test_anchored quotedMatchStringRegExp (matchExpr ttlString).

(** The regular expression between the quotes. *)
Definition quoted_regex (ttlString : string) : string :=
  Js.substring (matchExpr ttlString) 1 (Js.length (matchExpr ttlString) - 1).

(** A registry whose second Babel grammar rejects everything, behind
    a first one that accepts everything. *)
Definition two_babel_registry : list Grammar :=
  [ {| name := "Null Grammar"; scannerConstructor := Some (fun _ => Some "no") |};
    {| name := "Babel ES6 JavaScript";
       scannerConstructor := Some (fun _ => None) |};
    {| name := "Babel ES6 JavaScript";
       scannerConstructor := Some (fun r => Some ("Error: " +:+ r)) |} ].

(** A registry whose Babel grammar rejects every pattern. *)
Definition rejecting_registry : option (list Grammar) :=
  Some [ {| name := "Babel ES6 JavaScript";
            scannerConstructor :=
              Some (fun r => Some ("Error: bad pattern " +:+ r)) |} ].

(** ** Sample hosts *)

Definition is_info (e : event) : bool :=
  match e with AddInfo _ => true | _ => false end.

(** A package directory with the grammar the package ships and one
    generated file. *)
Definition shipped_world : World :=
  {| packagePath := "/p";
     files := {[ "/p/grammars/Babel Language.json" := "{}";
                 "/p/grammars/ttl-0.json" := "{}" ]};
     registered := Some "/p/grammars/ttl-0.json"; trace := [] |}.

Definition failing_readdir : Faults :=
  {| readdir_error := Some "Error: EACCES"; unlink_throws := None;
     unlink_fails := fun _ => false; writeFile_error := None;
     loadGrammar_error := false |}.

Definition failing_write : Faults :=
  {| readdir_error := None; unlink_throws := None;
     unlink_fails := fun _ => false;
     writeFile_error := Some "Error: ENOSPC"; loadGrammar_error := false |}.

Definition failing_load : Faults :=
  {| readdir_error := None; unlink_throws := None;
     unlink_fails := fun _ => false; writeFile_error := None;
     loadGrammar_error := true |}.

(** ** The scheduler over time *)

(** The calls of the scheduler among the inputs. *)
Definition count_observe (inputs : list input) : nat :=
  length (filter (fun i => is_observe i) inputs).

(** The values the setting takes during the inputs, and the one it has
    after them when it was [c] before. *)
Definition config_values (inputs : list input) : list (list string) :=
  omap (fun i => match i with SetConfig v => Some v | _ => None end) inputs.

Definition last_config (c : list string) (inputs : list input) : list string :=
  foldl (fun c i => match i with SetConfig v => v | _ => c end) c inputs.

(** An instance whose setting does not build, about to be scheduled. *)
Definition stuck_state : State := set_config [ "nocolon" ] idle_state.

(** ** The life of an instance *)

(** An instance is its fields and whether its [disposable] still holds
    the subscription to the setting.  [atom.config.observe] calls the
    observer once at once, with the current value, and then after
    every change of the setting, until the subscription is disposed
    of. *)
Record Instance : Type := {
  state : State;
  subscribed : bool
}.

(** The delay the constructor binds the observer to, in
    milliseconds. *)
#[warnings="-abstract-large-number"] Definition observe_delay : nat := 10000.

Definition constructor (observeConfig : bool) (host : State) : Instance :=
  let st := set_configChangedTimer None host in
  if observeConfig then
    {| state := observeTtlConfig observe_delay st; subscribed := true |}
  else {| state := st; subscribed := false |}.

Definition destroy (i : Instance) : Instance :=
  {| state := state i; subscribed := false |}.

(** What happens to an instance after its construction: the user
    edits the setting, a millisecond passes, the package destroys
    it. *)
Inductive happening : Type :=
| Changed (value : list string)
| Elapse
| Destroy.

Definition live (i : Instance) (h : happening) : Instance :=
  match h with
  | Changed value =>
      let st := set_config value (state i) in
      {| state := if subscribed i then observeTtlConfig observe_delay st else st;
         subscribed := subscribed i |}
  | Elapse => {| state := tick (state i); subscribed := subscribed i |}
  | Destroy => destroy i
  end.

Definition life (hs : list happening) (i : Instance) : Instance :=
  foldl live i hs.

(** What the host still sees of the happenings once the subscription
    is gone. *)
Definition inputs_of (hs : list happening) : list input :=
  omap (fun h => match h with
                 | Changed value => Some (SetConfig value)
                 | Elapse => Some Tick
                 | Destroy => None
                 end) hs.

Definition elapses (hs : list happening) : nat := elapsed (inputs_of hs).

Definition last_value (c : list string) (hs : list happening) : list string :=
  last_config c (inputs_of hs).

(** * Properties *)

(** ** The digest *)

Example sha256_abc :
  Sha256.hexdigest "abc"
  = "ba7816bf8f01cfea414140de5dae2223b00361a396177a9cb410ff61f20015ad".
Proof. vm_compute. reflexivity. Qed.

Example sha256_empty :
  Sha256.hexdigest ""
  = "e3b0c44298fc1c149afbf4c8996fb92427ae41e4649b934ca495991b7852b855".
Proof. vm_compute. reflexivity. Qed.

(** ** Strings *)

Lemma app_cons a s t : String a s +:+ t = String a (s +:+ t).
Proof. reflexivity. Qed.

Lemma append_assoc (s1 s2 s3 : string) :
  (s1 +:+ s2) +:+ s3 = s1 +:+ (s2 +:+ s3).
Proof.
  induction s1 as [|a s1 IH]; [reflexivity|].
  rewrite !app_cons. congruence.
Qed.

Lemma app_nil s : EmptyString +:+ s = s.
Proof. reflexivity. Qed.

Lemma has_char_cons c a s :
  has_char c (String a s) = Ascii.eqb c a || has_char c s.
Proof. reflexivity. Qed.

Lemma lastIndexOf_from_absent c s i found :
  has_char c s = false -> Js.lastIndexOf_from c s i found = found.
Proof.
  revert i found. induction s as [|a s IH]; intros i found H; [reflexivity|].
  rewrite has_char_cons in H. apply orb_false_elim in H as [Ha Hs].
  cbn [Js.lastIndexOf_from]. rewrite Ascii.eqb_sym, Ha. apply IH. exact Hs.
Qed.

Lemma lastIndexOf_absent c s :
  has_char c s = false -> Js.lastIndexOf c s = (-1)%Z.
Proof. apply lastIndexOf_from_absent. Qed.

Lemma substring_empty s i : (i <= 0)%Z -> Js.substring s 0 i = EmptyString.
Proof.
  intros Hi. unfold Js.substring, Js.clamp, Js.length.
  replace (Z.max 0 (Z.min 0 _)) with 0%Z by lia.
  replace (Z.max 0 (Z.min i _)) with 0%Z by lia.
  cbn. destruct s; reflexivity.
Qed.


(** ** The rule compiler *)


(** C9. A rule without a colon has an empty match expression and is
    rejected as an invalid pattern specification, whatever the
    validator. *)
Theorem createGrammarPatterns_no_colon grammars ttlString :
  has_char ":" ttlString = false ->
  Js.lastIndexOf ":" ttlString = (-1)%Z
  /\ matchExpr ttlString = EmptyString
  /\ createGrammarPatterns grammars ttlString
     = Throw (InvalidPatternSpec ttlString).
Proof.
  intros H. assert (Hm : matchExpr ttlString = EmptyString).
  { unfold matchExpr. rewrite (lastIndexOf_absent _ _ H).
    apply substring_empty. lia. }
  split; [apply lastIndexOf_absent, H|]. split; [exact Hm|].
  unfold createGrammarPatterns. fold (matchExpr ttlString). rewrite Hm.
  reflexivity.
Qed.

Lemma createGrammarPatterns_no_colon_witness :
  has_char ":" "nocolon" = false
  /\ createGrammarPatterns None "nocolon"
     = Throw (InvalidPatternSpec "nocolon").
Proof.
  split; [reflexivity|].
  apply (createGrammarPatterns_no_colon None "nocolon"). reflexivity.
Defined.

Lemma patternText_object contentName matchString includeScope :
  patternText contentName matchString includeScope
  = pattern_object contentName matchString includeScope.
Proof.
  unfold patternText, pattern_object, member, lines, q. cbn [Js.join].
  rewrite !append_assoc. reflexivity.
Qed.



(** ** Correctness of the matcher *)

Module RegexFacts.
Import Regex.

Lemma append_eq_nil s1 s2 :
  s1 +:+ s2 = EmptyString -> s1 = EmptyString /\ s2 = EmptyString.
Proof. destruct s1; [auto|discriminate]. Qed.

Lemma lang_empty_inv s : ~ lang Empty s.
Proof. inversion 1. Qed.

Lemma lang_eps_inv s : lang Eps s -> s = EmptyString.
Proof. inversion 1. reflexivity. Qed.

Lemma lang_chr_inv cls s :
  lang (Chr cls) s -> exists a, s = String a EmptyString /\ cls a = true.
Proof. inversion 1; subst. eauto. Qed.

Lemma lang_seq_inv r1 r2 s :
  lang (Seq r1 r2) s ->
  exists s1 s2, s = s1 +:+ s2 /\ lang r1 s1 /\ lang r2 s2.
Proof. inversion 1; subst. eauto. Qed.

Lemma lang_alt_inv r1 r2 s : lang (Alt r1 r2) s -> lang r1 s \/ lang r2 s.
Proof. inversion 1; subst; auto. Qed.

Lemma lang_star_inv r s :
  lang (Star r) s ->
  s = EmptyString
  \/ exists a s1 s2,
       s = String a s1 +:+ s2 /\ lang r (String a s1) /\ lang (Star r) s2.
Proof. inversion 1; subst; [auto|]. right. eauto 6. Qed.

Lemma nullable_lang r : nullable r = true <-> lang r EmptyString.
Proof.
  induction r as [| | cls | r1 IH1 r2 IH2 | r1 IH1 r2 IH2 | r IH]; cbn.
  - split; [discriminate|]. intros H. destruct (lang_empty_inv _ H).
  - split; [constructor|reflexivity].
  - split; [discriminate|].
    intros H. apply lang_chr_inv in H as (a & E & _). discriminate.
  - rewrite andb_true_iff, IH1, IH2. split.
    + intros [H1 H2]. apply (lang_seq _ _ _ _ H1 H2).
    + intros H. apply lang_seq_inv in H as (s1 & s2 & E & H1 & H2).
      symmetry in E. apply append_eq_nil in E as [-> ->]. auto.
  - rewrite orb_true_iff, IH1, IH2. split.
    + intros [H|H]; [apply lang_alt_l|apply lang_alt_r]; exact H.
    + apply lang_alt_inv.
  - split; [constructor|reflexivity].
Qed.

Lemma seq_lang r1 r2 s : lang (seq r1 r2) s <-> lang (Seq r1 r2) s.
Proof.
  destruct r1; cbn; try reflexivity.
  - split; intros H; [destruct (lang_empty_inv _ H)|].
    apply lang_seq_inv in H as (s1 & s2 & _ & H1 & _).
    destruct (lang_empty_inv _ H1).
  - split.
    + intros H. apply (lang_seq Eps r2 EmptyString s lang_eps H).
    + intros H. apply lang_seq_inv in H as (s1 & s2 & -> & H1 & H2).
      apply lang_eps_inv in H1 as ->. exact H2.
Qed.

Lemma alt_lang r1 r2 s : lang (alt r1 r2) s <-> lang (Alt r1 r2) s.
Proof.
  assert (Hl : forall r, lang r s <-> lang (Alt Empty r) s).
  { intros r. split; [apply lang_alt_r|].
    intros H. apply lang_alt_inv in H as [H|H]; [destruct (lang_empty_inv _ H)|exact H]. }
  assert (Hr : forall r, lang r s <-> lang (Alt r Empty) s).
  { intros r. split; [apply lang_alt_l|].
    intros H. apply lang_alt_inv in H as [H|H]; [exact H|destruct (lang_empty_inv _ H)]. }
  destruct r1, r2; cbn; first [reflexivity | apply Hl | apply Hr].
Qed.

Lemma lang_seq_cons r1 r2 a s :
  lang (Seq r1 r2) (String a s) <->
  (lang r1 EmptyString /\ lang r2 (String a s))
  \/ (exists s1 s2, s = s1 +:+ s2 /\ lang r1 (String a s1) /\ lang r2 s2).
Proof.
  split.
  - intros H. apply lang_seq_inv in H as (s1 & s2 & E & H1 & H2).
    destruct s1 as [|b s1].
    + left. rewrite app_nil in E. subst. auto.
    + right. rewrite app_cons in E. injection E as -> ->. eauto.
  - intros [[H1 H2]|(s1 & s2 & -> & H1 & H2)].
    + apply (lang_seq _ _ EmptyString _ H1 H2).
    + apply (lang_seq _ _ (String a s1) _ H1 H2).
Qed.

Lemma lang_star_cons_inv r a s :
  lang (Star r) (String a s) <->
  exists s1 s2, s = s1 +:+ s2 /\ lang r (String a s1) /\ lang (Star r) s2.
Proof.
  split.
  - intros H. apply lang_star_inv in H as [E|(b & s1 & s2 & E & H1 & H2)];
      [discriminate|].
    rewrite app_cons in E. injection E as -> ->. eauto.
  - intros (s1 & s2 & -> & H1 & H2). apply (lang_star_cons _ _ _ _ H1 H2).
Qed.

Lemma deriv_lang a r : forall s, lang (deriv a r) s <-> lang r (String a s).
Proof.
  induction r as [| | cls | r1 IH1 r2 IH2 | r1 IH1 r2 IH2 | r IH];
    intros s; cbn [deriv].
  - split; intros H; destruct (lang_empty_inv _ H).
  - split; intros H; [destruct (lang_empty_inv _ H)|].
    apply lang_eps_inv in H. discriminate.
  - destruct (cls a) eqn:Hc; split; intros H.
    + apply lang_eps_inv in H as ->. constructor. exact Hc.
    + apply lang_chr_inv in H as (b & [= <- ->] & _). constructor.
    + destruct (lang_empty_inv _ H).
    + apply lang_chr_inv in H as (b & [= <- ->] & Hb). congruence.
  - rewrite lang_seq_cons.
    destruct (nullable r1) eqn:Hn.
    + rewrite alt_lang. split.
      * intros H. apply lang_alt_inv in H as [H|H].
        -- right. apply seq_lang, lang_seq_inv in H as (s1 & s2 & -> & H1 & H2).
           exists s1, s2. split; [reflexivity|]. split; [apply IH1|]; assumption.
        -- left. split; [apply nullable_lang; exact Hn|apply IH2; assumption].
      * intros [[_ H2]|(s1 & s2 & -> & H1 & H2)].
        -- apply lang_alt_r, IH2, H2.
        -- apply lang_alt_l, seq_lang, lang_seq; [apply IH1|]; assumption.
    + rewrite seq_lang. split.
      * intros H. apply lang_seq_inv in H as (s1 & s2 & -> & H1 & H2).
        right. exists s1, s2. split; [reflexivity|]. split; [apply IH1|]; assumption.
      * intros [[H1 _]|(s1 & s2 & -> & H1 & H2)].
        -- apply nullable_lang in H1. congruence.
        -- apply lang_seq; [apply IH1|]; assumption.
  - rewrite alt_lang. split; intros H; apply lang_alt_inv in H as [H|H];
      first [apply lang_alt_l, IH1; assumption | apply lang_alt_r, IH2; assumption].
  - rewrite seq_lang, lang_star_cons_inv. split.
    + intros H. apply lang_seq_inv in H as (s1 & s2 & -> & H1 & H2).
      exists s1, s2. split; [reflexivity|]. split; [apply IH|]; assumption.
    + intros (s1 & s2 & -> & H1 & H2). apply lang_seq; [apply IH|]; assumption.
Qed.

Theorem matches_lang r s : matches r s = true <-> lang r s.
Proof.
  revert r. induction s as [|a s IH]; intros r; cbn [matches].
  - apply nullable_lang.
  - rewrite IH. apply deriv_lang.
Qed.

Lemma lang_star_any s : lang (Star any) s.
Proof.
  induction s as [|a s IH]; [constructor|].
  apply (lang_star_cons any a EmptyString s); [|exact IH].
  constructor. reflexivity.
Qed.

Lemma has_char_app_cons c s1 s2 : has_char c (s1 +:+ String c s2) = true.
Proof.
  induction s1 as [|b s1 IH].
  - rewrite app_nil, has_char_cons, Ascii.eqb_refl. reflexivity.
  - rewrite app_cons, has_char_cons, IH. apply orb_true_r.
Qed.

(** [/c/.test(s)] says whether [c] occurs in [s]. *)
Lemma test_char c s : test (Chr (char c)) s = has_char c s.
Proof.
  apply eq_true_iff_eq. unfold test. rewrite matches_lang. split.
  - intros H. apply lang_seq_inv in H as (s1 & s2 & -> & _ & H).
    apply lang_seq_inv in H as (t1 & t2 & -> & H & _).
    apply lang_chr_inv in H as (a & -> & Hc).
    unfold char in Hc. apply Ascii.eqb_eq in Hc as ->.
    rewrite app_cons, app_nil. apply has_char_app_cons.
  - induction s as [|a s IH]; [discriminate|].
    rewrite has_char_cons, orb_true_iff. intros [Ha|Hs].
    + apply Ascii.eqb_eq in Ha as <-.
      apply (lang_seq _ _ EmptyString (String c s)); [constructor|].
      apply (lang_seq _ _ (String c EmptyString) s); [|apply lang_star_any].
      constructor. apply Ascii.eqb_refl.
    + specialize (IH Hs).
      apply lang_seq_inv in IH as (s1 & s2 & -> & _ & H2).
      apply (lang_seq _ _ (String a s1) s2); [apply lang_star_any|exact H2].
Qed.

End RegexFacts.

(** ** Literal match expressions *)

Lemma createGrammarPatterns_literal grammars ttlString :
  literal_form ttlString = true ->
  createGrammarPatterns grammars ttlString
  = if has_char Js.dquote (matchExpr ttlString)
    then Throw (InvalidLiteral (matchExpr ttlString))
    else Ok (patternText (match_before_hash (scopeRef ttlString))
               (escapeLiteral (matchExpr ttlString)) (scopeRef ttlString)).
Proof.
  unfold literal_form. rewrite !andb_true_iff, !negb_true_iff.
  intros [[Hlen Hscope] Hquoted].
  unfold createGrammarPatterns. fold (matchExpr ttlString) (scopeRef ttlString).
  rewrite Hlen, Hscope, Hquoted, RegexFacts.test_char.
  destruct (has_char _ _); reflexivity.
Qed.

(** C5, as stated, fails: this literal has no unescaped double quote
    and is rejected all the same. *)
Lemma escaped_quote_rejected :
  literal_form escaped_quote_rule = true
  /\ has_unescaped_quote (matchExpr escaped_quote_rule) = false
  /\ createGrammarPatterns None escaped_quote_rule
     = Throw (InvalidLiteral (matchExpr escaped_quote_rule)).
Proof. vm_compute. auto. Qed.

(** The scope reference is checked first: with an invalid one the
    error is the one of the rule, quote or no quote. *)
Example quote_with_invalid_scope :
  createGrammarPatterns None (q "a'b:1nvalid..")
  = Throw (InvalidPatternSpec (q "a'b:1nvalid..")).
Proof. vm_compute. reflexivity. Qed.

(** C5, amended. A rule in literal form is rejected as an invalid
    literal exactly when its match expression contains a double quote,
    escaped or not. *)
Theorem createGrammarPatterns_literal_quote grammars ttlString :
  literal_form ttlString = true ->
  createGrammarPatterns grammars ttlString
  = Throw (InvalidLiteral (matchExpr ttlString))
  <-> has_char Js.dquote (matchExpr ttlString) = true.
Proof.
  intros H. rewrite (createGrammarPatterns_literal _ _ H).
  destruct (has_char _ _); split; congruence.
Qed.

(** The rule of the design document: [a], a double quote, [b]. *)
Lemma createGrammarPatterns_literal_quote_witness :
  literal_form (q "a'b:source.example") = true
  /\ createGrammarPatterns None (q "a'b:source.example")
     = Throw (InvalidLiteral (q "a'b")).
Proof.
  split; [vm_compute; reflexivity|].
  apply (createGrammarPatterns_literal_quote None (q "a'b:source.example"));
    vm_compute; reflexivity.
Defined.

(** *** Escaping *)

Lemma flat_map_string_app f s1 s2 :
  flat_map_string f (s1 +:+ s2)
  = flat_map_string f s1 +:+ flat_map_string f s2.
Proof.
  induction s1 as [|a s1 IH]; [reflexivity|].
  rewrite app_cons. cbn [flat_map_string].
  rewrite IH, append_assoc. reflexivity.
Qed.

Lemma replace_class_app cls f s1 s2 :
  Js.replace_class cls f (s1 +:+ s2)
  = Js.replace_class cls f s1 +:+ Js.replace_class cls f s2.
Proof.
  induction s1 as [|a s1 IH]; [reflexivity|].
  rewrite app_cons. cbn [Js.replace_class].
  rewrite IH, append_assoc. reflexivity.
Qed.

Lemma escapeLiteral_cons a s :
  escapeLiteral (String a s) = literal_char_escape a +:+ escapeLiteral s.
Proof.
  unfold escapeLiteral. cbn [Js.replace_class].
  rewrite replace_class_app. f_equal.
  unfold literal_char_escape. destruct (preEscapedSlash a) eqn:Hb.
  - reflexivity.
  - cbn [Js.str Js.replace_class].
    destruct (escapeStringRegExp a); reflexivity.
Qed.

Lemma escapeLiteral_chars s :
  escapeLiteral s = flat_map_string literal_char_escape s.
Proof.
  induction s as [|a s IH]; [reflexivity|].
  rewrite escapeLiteral_cons, IH. reflexivity.
Qed.

(** A metacharacter is neither a backslash, nor a double quote, nor a
    control character. *)
Lemma metacharacter_plain a :
  escapeStringRegExp a = true ->
  Regex.char Js.backslash a = false
  /\ Regex.char Js.dquote a = false
  /\ control a = false.
Proof.
  intros H.
  destruct a as [[|] [|] [|] [|] [|] [|] [|] [|]];
    try discriminate H; repeat split; reflexivity.
Qed.

Lemma literal_escape_doubles s :
  flat_map_string literal_char_escape s
  = double_backslashes (regex_quote s).
Proof.
  unfold double_backslashes, regex_quote.
  induction s as [|a s IH]; [reflexivity|].
  cbn [flat_map_string]. rewrite flat_map_string_app, IH. f_equal.
  unfold literal_char_escape, regex_char_quote.
  destruct (preEscapedSlash a) eqn:Hb.
  - unfold preEscapedSlash, Regex.char in Hb. apply Ascii.eqb_eq in Hb as ->.
    reflexivity.
  - destruct (escapeStringRegExp a) eqn:Hm; cbn [orb].
    + unfold Js.str. cbn [flat_map_string]. rewrite Hb.
      replace (preEscapedSlash Js.backslash) with true by reflexivity.
      reflexivity.
    + unfold Js.str. cbn [flat_map_string]. rewrite Hb. reflexivity.
Qed.

Lemma json_unescape_pair t :
  json_unescape (String Js.backslash (String Js.backslash t))
  = String Js.backslash <$> json_unescape t.
Proof. reflexivity. Qed.

Lemma json_unescape_quote t :
  json_unescape (String Js.backslash (String Js.dquote t))
  = String Js.dquote <$> json_unescape t.
Proof. reflexivity. Qed.

Lemma json_unescape_plain a t :
  Regex.char Js.backslash a = false -> Regex.char Js.dquote a = false ->
  json_unescape (String a t)
  = if control a then None else String a <$> json_unescape t.
Proof. intros Hb Hq. cbn [json_unescape]. rewrite Hb, Hq. reflexivity. Qed.

Lemma control_free_cons a s :
  control_free (String a s) = negb (control a) && control_free s.
Proof. reflexivity. Qed.

Lemma regex_literal_escaped b t :
  Regex.char Js.backslash b || escapeStringRegExp b = true ->
  regex_literal (String Js.backslash (String b t))
  = String b <$> regex_literal t.
Proof.
  intros H. cbn [regex_literal].
  replace (Regex.char Js.backslash Js.backslash) with true by reflexivity.
  rewrite H. reflexivity.
Qed.

Lemma regex_literal_plain a t :
  Regex.char Js.backslash a = false -> escapeStringRegExp a = false ->
  regex_literal (String a t) = String a <$> regex_literal t.
Proof. intros Hb Hm. cbn [regex_literal]. rewrite Hb, Hm. reflexivity. Qed.

(** The quoted literal, read as a regular expression, is the literal. *)
Lemma regex_literal_quote s : regex_literal (regex_quote s) = Some s.
Proof.
  unfold regex_quote. induction s as [|a s IH]; [reflexivity|].
  cbn [flat_map_string]. unfold regex_char_quote at 1.
  destruct (preEscapedSlash a || escapeStringRegExp a) eqn:H.
  - change (String Js.backslash (Js.str a) +:+ ?x)
      with (String Js.backslash (String a x)).
    rewrite regex_literal_escaped, IH by exact H. reflexivity.
  - apply orb_false_elim in H as [Hb Hm].
    change (Js.str a +:+ ?x) with (String a x).
    rewrite (regex_literal_plain _ _ Hb Hm), IH. reflexivity.
Qed.

(** What a JSON reader makes of the escaped literal. *)
Lemma json_unescape_literal s :
  has_char Js.dquote s = false ->
  json_unescape (flat_map_string literal_char_escape s)
  = if control_free s then Some (regex_quote s) else None.
Proof.
  unfold regex_quote. induction s as [|a s IH]; [reflexivity|].
  rewrite has_char_cons. intros H. apply orb_false_elim in H as [Ha Hs].
  specialize (IH Hs). cbn [flat_map_string]. rewrite control_free_cons.
  assert (Hq : Regex.char Js.dquote a = false).
  { unfold Regex.char. rewrite Ascii.eqb_sym. exact Ha. }
  unfold literal_char_escape at 1, regex_char_quote at 1.
  destruct (preEscapedSlash a) eqn:Hb; unfold preEscapedSlash in Hb.
  - unfold Regex.char in Hb. apply Ascii.eqb_eq in Hb as ->.
    change (backslashes 4 +:+ ?x)
      with (String Js.backslash (String Js.backslash (String Js.backslash
              (String Js.backslash x)))).
    rewrite !json_unescape_pair, IH.
    replace (control Js.backslash) with false by reflexivity.
    destruct (control_free s); reflexivity.
  - destruct (escapeStringRegExp a) eqn:Hm; cbn [orb].
    + destruct (metacharacter_plain a Hm) as (_ & _ & Hc).
      change ((backslashes 2 +:+ Js.str a) +:+ ?x)
        with (String Js.backslash (String Js.backslash (String a x))).
      rewrite json_unescape_pair, (json_unescape_plain _ _ Hb Hq), Hc, IH.
      destruct (control_free s); reflexivity.
    + change (Js.str a +:+ ?x) with (String a x).
      rewrite (json_unescape_plain _ _ Hb Hq), IH.
      destruct (control a); [reflexivity|].
      destruct (control_free s); reflexivity.
Qed.

(** C6. An accepted literal compiles to the pattern object whose
    [begin] member holds, between its parentheses, the literal with
    four backslashes for every backslash and two backslashes before
    every metacharacter.  That text is, with every backslash written
    twice as a string of the document spells it, the literal with one
    backslash before every backslash and metacharacter, and this, as
    a regular expression, matches the literal itself and nothing
    else.  A JSON reader gets exactly this regular expression from the
    text whenever the literal holds no control character.  The rule
    of the design document has two backslashes before its dot and
    before its star. *)
Theorem createGrammarPatterns_literal_escape :
  (forall grammars,
      createGrammarPatterns grammars "a.b*c:source.example"
      = Ok (pattern_object "source.example" "a\\.b\\*c" "source.example"))
  /\ (forall grammars ttlString,
        literal_form ttlString = true ->
        has_char Js.dquote (matchExpr ttlString) = false ->
        createGrammarPatterns grammars ttlString
        = Ok (pattern_object (match_before_hash (scopeRef ttlString))
                (flat_map_string literal_char_escape (matchExpr ttlString))
                (scopeRef ttlString))
        /\ flat_map_string literal_char_escape (matchExpr ttlString)
           = double_backslashes (regex_quote (matchExpr ttlString))
        /\ regex_literal (regex_quote (matchExpr ttlString))
           = Some (matchExpr ttlString)
        /\ json_unescape
             (flat_map_string literal_char_escape (matchExpr ttlString))
           = if control_free (matchExpr ttlString)
             then Some (regex_quote (matchExpr ttlString))
             else None).
Proof.
  split.
  - intros grammars. vm_compute. reflexivity.
  - intros grammars ttlString Hform Hquote. split; [|split; [|split]].
    + rewrite (createGrammarPatterns_literal _ _ Hform), Hquote.
      rewrite patternText_object, escapeLiteral_chars. reflexivity.
    + apply literal_escape_doubles.
    + apply regex_literal_quote.
    + apply json_unescape_literal, Hquote.
Qed.

Lemma createGrammarPatterns_literal_escape_witness :
  createGrammarPatterns None "/** @html\n */:text.html.basic"
  = Ok (pattern_object "text.html.basic" "/\\*\\* @html\\\\n \\*/"
          "text.html.basic")
  /\ regex_literal "/\*\* @html\\n \*/" = Some "/** @html\n */"
  /\ json_unescape "/\\*\\* @html\\\\n \\*/" = Some "/\*\* @html\\n \*/".
Proof.
  destruct (proj2 createGrammarPatterns_literal_escape None
              "/** @html\n */:text.html.basic") as (H1 & _ & H3 & H4);
    [vm_compute; reflexivity | vm_compute; reflexivity |].
  split; [exact H1|]. split; [exact H3 | exact H4].
Defined.

(** ** The document builder *)

(** The validator decides whether a quoted rule compiles, never what
    it compiles to. *)
Lemma createGrammarPatterns_validator g1 g2 ttlString t1 t2 :
  createGrammarPatterns g1 ttlString = Ok t1 ->
  createGrammarPatterns g2 ttlString = Ok t2 ->
  t1 = t2.
Proof.
  unfold createGrammarPatterns. fold (matchExpr ttlString) (scopeRef ttlString).
  destruct (_ || _); [discriminate|].
  destruct (Regex.test_anchored quotedMatchStringRegExp _).
  - destruct (onigurumaCheck g1 _); [discriminate|].
    destruct (onigurumaCheck g2 _); [discriminate|]. congruence.
  - destruct (Regex.test _ _); [discriminate|]. congruence.
Qed.

Lemma map_throwing_validator g1 g2 ttlConfig p1 p2 :
  map_throwing (createGrammarPatterns g1) ttlConfig = Ok p1 ->
  map_throwing (createGrammarPatterns g2) ttlConfig = Ok p2 ->
  p1 = p2.
Proof.
  revert p1 p2. induction ttlConfig as [|r rs IH]; intros p1 p2; cbn.
  - congruence.
  - destruct (createGrammarPatterns g1 r) as [|x] eqn:H1; [discriminate|].
    destruct (createGrammarPatterns g2 r) as [|y] eqn:H2; [discriminate|].
    destruct (map_throwing (createGrammarPatterns g1) rs) as [|xs];
      [discriminate|].
    destruct (map_throwing (createGrammarPatterns g2) rs) as [|ys];
      [discriminate|].
    intros [= <-] [= <-].
    rewrite (createGrammarPatterns_validator _ _ _ _ _ H1 H2).
    f_equal. apply IH; reflexivity.
Qed.

(** C3. For a list of rules that compile, the document text is a
    function of the list alone: two builds give the same bytes, even
    when the validator the host offers differs between them (it is the
    only thing of the environment that [createGrammarPatterns] looks
    at; nothing else, and no earlier call, enters the result). *)
Theorem createGrammarText_deterministic g1 g2 ttlConfig text1 text2 :
  createGrammarText g1 ttlConfig = Ok text1 ->
  createGrammarText g2 ttlConfig = Ok text2 ->
  text1 = text2.
Proof.
  unfold createGrammarText.
  destruct (map_throwing (createGrammarPatterns g1) _) as [|p1] eqn:H1;
    [discriminate|].
  destruct (map_throwing (createGrammarPatterns g2) _) as [|p2] eqn:H2;
    [discriminate|].
  intros [= <-] [= <-].
  rewrite (map_throwing_validator _ _ _ _ _ H1 H2). reflexivity.
Qed.

Lemma sample_config_builds grammars :
  grammars = None \/ grammars = accepting_registry ->
  createGrammarText grammars sample_config
  = Ok (text_with grammars sample_config).
Proof.
  intros [->| ->].
  - vm_cast_no_check (@eq_refl (result error string)
                        (Ok (text_with None sample_config))).
  - vm_cast_no_check (@eq_refl (result error string)
                        (Ok (text_with accepting_registry sample_config))).
Qed.

Lemma createGrammarText_deterministic_witness :
  createGrammarText None sample_config = Ok (text_of sample_config)
  /\ createGrammarText accepting_registry sample_config
     = Ok (text_of sample_config).
Proof.
  pose proof (sample_config_builds None (or_introl eq_refl)) as H1.
  pose proof (sample_config_builds accepting_registry (or_intror eq_refl))
    as H2.
  split; [exact H1|].
  exact (eq_trans H2
           (f_equal Ok
              (eq_sym (createGrammarText_deterministic None
                         accepting_registry sample_config _ _ H1 H2)))).
Defined.

(** C7. When some rule of the list does not compile, the build throws
    the error of the first such rule, in list order, and so returns no
    text. *)
Theorem createGrammarText_fails_fast grammars ttlConfig :
  (exists r, r ∈ ttlConfig /\ is_ok (createGrammarPatterns grammars r) = false) ->
  exists (before : list string) r after e,
    ttlConfig = before ++ r :: after
    /\ Forall (fun x => is_ok (createGrammarPatterns grammars x) = true) before
    /\ createGrammarPatterns grammars r = Throw e
    /\ createGrammarText grammars ttlConfig = Throw e.
Proof.
  unfold createGrammarText.
  induction ttlConfig as [|x rs IH]; intros (r & Hin & Hr).
  - inversion Hin.
  - cbn [map_throwing].
    destruct (createGrammarPatterns grammars x) as [e|y] eqn:Hx.
    + exists [], x, rs, e. auto.
    + assert (Hrs : exists r, r ∈ rs
                /\ is_ok (createGrammarPatterns grammars r) = false).
      { apply elem_of_cons in Hin as [->|Hin]; [|eauto].
        rewrite Hx in Hr. discriminate. }
      destruct (IH Hrs) as (before & r' & after & e & -> & Hb & Hr' & Ht).
      exists (x :: before), r', after, e. split; [reflexivity|].
      split; [constructor; [rewrite Hx; reflexivity|exact Hb]|].
      split; [exact Hr'|].
      destruct (map_throwing _ _); congruence.
Qed.

Lemma createGrammarText_fails_fast_witness :
  exists (before : list string) r after e,
    failing_config = before ++ r :: after
    /\ Forall (fun x => is_ok (createGrammarPatterns None x) = true) before
    /\ createGrammarPatterns None r = Throw e
    /\ createGrammarText None failing_config = Throw e.
Proof.
  apply (createGrammarText_fails_fast None failing_config).
  exists "nocolon". split; [repeat constructor|reflexivity].
Defined.

Example createGrammarText_first_error :
  createGrammarText None failing_config = Throw (InvalidPatternSpec "bad scope:1nvalid..").
Proof. vm_compute. reflexivity. Qed.

(** C10. Every document that is built opens with the brace of the
    top-level object, its name member, and two members that are both
    keyed comment, one per notice: the key occurs twice before any
    nested object opens. *)
Theorem createGrammarText_comment_twice grammars ttlConfig text :
  createGrammarText grammars ttlConfig = Ok text ->
  (exists rest, text = documentOpening +:+ rest)
  /\ occurrences (q "'comment':") documentOpening = 2
  /\ occurrences "{" documentOpening = 1
  /\ occurrences "}" documentOpening = 0.
Proof.
  unfold createGrammarText.
  destruct (map_throwing _ _) as [|patterns]; [discriminate|].
  intros [= <-]. split; [|vm_compute; auto].
  assert (H : exists rest, documentHead = documentOpening +:+ rest).
  { eexists. vm_compute. reflexivity. }
  destruct H as [rest ->]. rewrite append_assoc. eauto.
Qed.

Lemma example_config_builds :
  createGrammarText None [ "tag:source.example" ]
  = Ok (text_of [ "tag:source.example" ]).
Proof.
  vm_cast_no_check (@eq_refl (result error string)
                      (Ok (text_of [ "tag:source.example" ]))).
Qed.

Lemma createGrammarText_comment_twice_witness :
  exists rest, text_of [ "tag:source.example" ] = documentOpening +:+ rest.
Proof.
  exact (proj1 (createGrammarText_comment_twice None [ "tag:source.example" ]
                  (text_of [ "tag:source.example" ]) example_config_builds)).
Defined.

(** ** Paths and directory listings *)

Lemma strip_prefix_app p s : strip_prefix p (p +:+ s) = Some s.
Proof.
  induction p as [|a p IH]; [reflexivity|].
  rewrite app_cons. cbn [strip_prefix]. rewrite Ascii.eqb_refl. exact IH.
Qed.

Lemma strip_prefix_Some p s n : strip_prefix p s = Some n -> s = p +:+ n.
Proof.
  revert s. induction p as [|a p IH]; intros s; cbn [strip_prefix].
  - intros [= ->]. reflexivity.
  - destruct s as [|b s]; [discriminate|].
    destruct (Ascii.eqb a b) eqn:E; [|discriminate].
    apply Ascii.eqb_eq in E as ->. intros H. rewrite app_cons, (IH _ H).
    reflexivity.
Qed.

Lemma has_char_app c s1 s2 :
  has_char c (s1 +:+ s2) = has_char c s1 || has_char c s2.
Proof.
  induction s1 as [|a s1 IH]; [reflexivity|].
  rewrite app_cons, !has_char_cons, IH, orb_assoc. reflexivity.
Qed.

Lemma entry_of_Some dir path n :
  entry_of dir path = Some n <->
  path = path_resolve dir n /\ has_char "/" n = false.
Proof.
  unfold entry_of, path_resolve. split.
  - destruct (strip_prefix _ _) as [m|] eqn:E; [|discriminate].
    destruct (has_char "/" m) eqn:Hm; [discriminate|].
    intros [= <-]. apply strip_prefix_Some in E.
    rewrite E, append_assoc. auto.
  - intros [-> Hn]. rewrite <- append_assoc, strip_prefix_app, Hn. reflexivity.
Qed.

Lemma elem_of_readdir dir (fs : gmap string string) n :
  n ∈ readdir dir fs <->
  is_Some (fs !! path_resolve dir n) /\ has_char "/" n = false.
Proof.
  unfold readdir. rewrite list_elem_of_omap. split.
  - intros (p & Hp & E). apply entry_of_Some in E as [-> Hn].
    split; [|exact Hn].
    apply list_elem_of_fmap in Hp as ([p v] & -> & Hpv).
    apply elem_of_map_to_list in Hpv. eauto.
  - intros [[v Hv] Hn]. exists (path_resolve dir n). split.
    + apply list_elem_of_fmap. exists (path_resolve dir n, v).
      split; [reflexivity|]. apply elem_of_map_to_list. exact Hv.
    + apply entry_of_Some. auto.
Qed.

Lemma NoDup_omap_inj {A B} (f : A -> option B) (l : list A) :
  (forall x y z, f x = Some z -> f y = Some z -> x = y) ->
  NoDup l -> NoDup (omap f l).
Proof.
  intros Hinj. induction 1 as [|x l Hx Hl IH]; cbn; [constructor|].
  destruct (f x) as [z|] eqn:E; [|exact IH].
  constructor; [|exact IH].
  rewrite list_elem_of_omap. intros (y & Hy & Ey).
  rewrite (Hinj _ _ _ E Ey) in Hx. contradiction.
Qed.

Lemma NoDup_readdir dir (fs : gmap string string) : NoDup (readdir dir fs).
Proof.
  apply NoDup_omap_inj; [|apply NoDup_fst_map_to_list].
  intros x y z Hx Hy.
  apply entry_of_Some in Hx as [-> _]. apply entry_of_Some in Hy as [-> _].
  reflexivity.
Qed.

Lemma path_resolve_inj dir n1 n2 :
  path_resolve dir n1 = path_resolve dir n2 -> n1 = n2.
Proof.
  unfold path_resolve. rewrite <- !append_assoc. intros H.
  assert (E : strip_prefix (dir +:+ "/") ((dir +:+ "/") +:+ n1) = Some n2)
    by (rewrite H; apply strip_prefix_app).
  rewrite strip_prefix_app in E. congruence.
Qed.

(** A list without repetition whose only possible member is [a]. *)
Lemma NoDup_only {A} (l : list A) (a : A) :
  NoDup l -> (forall x, x ∈ l <-> x = a) -> l = [a].
Proof.
  intros Hnd H. destruct l as [|x l].
  - assert (Ha : a ∈ []) by (apply H; reflexivity). inversion Ha.
  - assert (x = a) as -> by (apply H; left).
    destruct l as [|y l]; [reflexivity|].
    assert (y = a) as -> by (apply H; right; left).
    apply NoDup_cons in Hnd as [Hnot _]. destruct Hnot. left.
Qed.

(** ** The generated file name *)

Lemma hex_digit_not_slash x :
  (0 <= x < 16)%Z -> Ascii.eqb "/" (Sha256.hex_digit x) = false.
Proof.
  intros Hx. assert (E : x = Z.of_nat (Z.to_nat x)) by lia.
  assert (Hn : (Z.to_nat x < 16)%nat) by lia.
  rewrite E. generalize dependent (Z.to_nat x). intros n _ Hn.
  do 16 (destruct n as [|n]; [reflexivity|]). lia.
Qed.

Lemma hex_no_slash bs :
  Forall (fun b => 0 <= b < 256)%Z bs -> has_char "/" (Sha256.hex bs) = false.
Proof.
  induction 1 as [|b bs Hb _ IH]; [reflexivity|].
  cbn [Sha256.hex]. rewrite !has_char_cons, IH.
  rewrite !hex_digit_not_slash; [reflexivity| |].
  - change 15%Z with (Z.ones 4). rewrite Z.land_ones by lia.
    apply Z.mod_pos_bound. lia.
  - rewrite Z.shiftr_div_pow2 by lia. change (2 ^ 4)%Z with 16%Z.
    split; [apply Z.div_pos; lia|apply Z.div_lt_upper_bound; lia].
Qed.

Lemma be_bytes_range n x : Forall (fun b => 0 <= b < 256)%Z (Sha256.be_bytes n x).
Proof.
  revert x. induction n as [|n IH]; intros x; cbn [Sha256.be_bytes].
  - constructor.
  - apply Forall_app. split; [apply IH|].
    constructor; [|constructor].
    change 255%Z with (Z.ones 8). rewrite Z.land_ones by lia.
    apply Z.mod_pos_bound. lia.
Qed.

Lemma digest_range msg : Forall (fun b => 0 <= b < 256)%Z (Sha256.digest msg).
Proof.
  unfold Sha256.digest. generalize (fold_left Sha256.compress
    (Sha256.blocks (List.length (Sha256.pad msg)) (Sha256.pad msg))
    Sha256.initial_state).
  intros st. induction st as [|x st IH]; cbn [flat_map]; [constructor|].
  apply Forall_app. split; [apply be_bytes_range|exact IH].
Qed.

Lemma ttlFilename_plain text :
  has_char "/" (makeTtlGrammarFilename (generateTtlSHA256 text)) = false.
Proof.
  unfold makeTtlGrammarFilename, generateTtlSHA256, Sha256.hexdigest.
  rewrite !has_char_app, (hex_no_slash _ (digest_range _)). reflexivity.
Qed.

Lemma ttlFilename_is_ttl hash : is_ttl (makeTtlGrammarFilename hash) = true.
Proof. reflexivity. Qed.

(** ** Publishing *)

Lemma filter_cons_bool {A} (f : A -> bool) a (l : list A) :
  filter (fun x => f x) (a :: l)
  = if f a then a :: filter (fun x => f x) l else filter (fun x => f x) l.
Proof.
  rewrite filter_cons. cbv beta. destruct (f a).
  - rewrite decide_True by exact I. reflexivity.
  - rewrite decide_False by (intros []). reflexivity.
Qed.

(** The clean-up on a runtime that takes its calls, and on one that
    throws at the first. *)
Lemma for_of_unlink fl names w :
  unlink_throws fl = None ->
  for_of names (fun n w => unlink fl (makeTtlGrammarFilenameAbsoulute w n) w) w
  = (Ok tt,
     {| packagePath := packagePath w;
        files :=
          unlink_all (getGrammarPath w)
            (filter (fun n => negb (unlink_fails fl
                                      (path_resolve (getGrammarPath w) n)))
               names)
            (files w);
        registered := registered w;
        trace := trace w
                 ++ map (fun n => FsUnlink (path_resolve (getGrammarPath w) n))
                      names |}).
Proof.
  intros Hth. unfold makeTtlGrammarFilenameAbsoulute. revert w.
  induction names as [|n names IH]; intros w.
  - cbn. rewrite app_nil_r. destruct w; reflexivity.
  - cbn [for_of]. unfold mbind, host_bind, bind. unfold unlink at 1.
    rewrite Hth, filter_cons_bool.
    destruct (unlink_fails fl (path_resolve (getGrammarPath w) n));
      cbn [negb]; rewrite IH; cbn; rewrite <- app_assoc; reflexivity.
Qed.

Lemma for_of_unlink_throws fl err n names w :
  unlink_throws fl = Some err ->
  for_of (n :: names)
    (fun n w => unlink fl (makeTtlGrammarFilenameAbsoulute w n) w) w
  = (Throw err, log (FsUnlink (path_resolve (getGrammarPath w) n)) w).
Proof.
  intros H. cbn [for_of]. unfold mbind, host_bind, bind, unlink.
  rewrite H. reflexivity.
Qed.

Lemma unlink_all_lookup_in dir names (fs : gmap string string) n :
  n ∈ names -> unlink_all dir names fs !! path_resolve dir n = None.
Proof.
  unfold unlink_all. revert fs.
  induction names as [|m names IH]; intros fs Hn; [inversion Hn|].
  cbn [foldl]. destruct (decide (n ∈ names)) as [Hin|Hout]; [apply IH, Hin|].
  apply elem_of_cons in Hn as [->|Hn]; [|contradiction].
  clear IH Hout. generalize (path_resolve dir m). intros p.
  assert (H : delete p fs !! p = None) by apply lookup_delete_eq.
  revert H. generalize (delete p fs). clear fs.
  induction names as [|k names IH]; intros fs H; [exact H|].
  cbn [foldl]. apply IH. rewrite lookup_delete. case_decide; [reflexivity|exact H].
Qed.

Lemma unlink_all_lookup_Some dir names (fs : gmap string string) p :
  is_Some (unlink_all dir names fs !! p) -> is_Some (fs !! p).
Proof.
  unfold unlink_all. revert fs.
  induction names as [|m names IH]; intros fs; [auto|].
  cbn [foldl]. intros H. apply IH in H. rewrite lookup_delete in H.
  case_decide; [destruct H; discriminate|exact H].
Qed.

Lemma unlink_all_lookup_other dir names (fs : gmap string string) p :
  (forall n, n ∈ names -> p <> path_resolve dir n) ->
  unlink_all dir names fs !! p = fs !! p.
Proof.
  unfold unlink_all. revert fs.
  induction names as [|m names IH]; intros fs H; [reflexivity|].
  cbn [foldl]. rewrite IH by (intros n Hn; apply H; right; exact Hn).
  apply lookup_delete_ne. intros E. apply (H m); [left|]. congruence.
Qed.

Lemma elem_of_ttl dir (fs : gmap string string) n :
  n ∈ filter (fun f => is_ttl f) (readdir dir fs) <->
  is_ttl n = true /\ is_Some (fs !! path_resolve dir n)
  /\ has_char "/" n = false.
Proof. rewrite list_elem_of_filter, elem_of_readdir, Is_true_true. tauto. Qed.

(** The generated files after some were deleted, and after one was
    written. *)
Lemma elem_of_ttl_unlink_all dir names (fs : gmap string string) n :
  n ∈ filter (fun f => is_ttl f) (readdir dir (unlink_all dir names fs)) <->
  n ∈ filter (fun f => is_ttl f) (readdir dir fs) /\ n ∉ names.
Proof.
  rewrite !elem_of_ttl. split.
  - intros (Ht & Hs & Hp). split; [eauto using unlink_all_lookup_Some|].
    intros Hin. rewrite (unlink_all_lookup_in _ _ _ _ Hin) in Hs.
    destruct Hs. discriminate.
  - intros [(Ht & Hs & Hp) Hout]. split; [exact Ht|]. split; [|exact Hp].
    rewrite unlink_all_lookup_other; [exact Hs|].
    intros m Hm E. apply path_resolve_inj in E. congruence.
Qed.

Lemma elem_of_ttl_insert dir (fs : gmap string string) name text n :
  is_ttl name = true -> has_char "/" name = false ->
  n ∈ filter (fun f => is_ttl f)
        (readdir dir (<[path_resolve dir name := text]> fs)) <->
  n = name \/ n ∈ filter (fun f => is_ttl f) (readdir dir fs).
Proof.
  intros Ht Hp. rewrite !elem_of_ttl.
  destruct (decide (n = name)) as [->|Hne].
  - rewrite lookup_insert_eq. split; [auto|]. intros _. eauto.
  - rewrite lookup_insert_ne
      by (intros E; apply path_resolve_inj in E; congruence).
    split; [auto|]. intros [?|?]; [contradiction|assumption].
Qed.

(** After the clean-up the generated files are those the host failed
    to delete. *)
Lemma elem_of_ttl_after_unlink fl w n :
  n ∈ filter (fun f => is_ttl f)
        (readdir (getGrammarPath w) (after_unlink fl w)) <->
  n ∈ ttl_files w
  /\ unlink_fails fl (path_resolve (getGrammarPath w) n) = true.
Proof.
  unfold after_unlink. rewrite elem_of_ttl_unlink_all. fold (ttl_files w).
  unfold deleted. rewrite list_elem_of_filter.
  destruct (unlink_fails fl (path_resolve (getGrammarPath w) n)); cbn.
  - split; [intros [H _]; auto|]. intros [H _]. split; [exact H|]. tauto.
  - split; [|intros [_ H]; discriminate].
    intros [H Hout]. exfalso. apply Hout. auto.
Qed.

Lemma after_unlink_other fl w p :
  (forall n, is_ttl n = true -> p <> path_resolve (getGrammarPath w) n) ->
  after_unlink fl w !! p = files w !! p.
Proof.
  intros H. apply unlink_all_lookup_other. intros n Hn.
  apply list_elem_of_filter in Hn as [_ Hn].
  apply elem_of_ttl in Hn as [Hn _]. apply H, Hn.
Qed.

Lemma ttl_files_eq w w' :
  packagePath w' = packagePath w -> files w' = files w ->
  ttl_files w' = ttl_files w.
Proof. unfold ttl_files, getGrammarPath. intros -> ->. reflexivity. Qed.

Lemma ttl_files_of w' w (fs : gmap string string) :
  packagePath w' = packagePath w -> files w' = fs ->
  ttl_files w' = filter (fun f => is_ttl f) (readdir (getGrammarPath w) fs).
Proof. unfold ttl_files, getGrammarPath. intros -> ->. reflexivity. Qed.

Lemma ttl_files_empty w : files w = ∅ -> ttl_files w = [].
Proof.
  intros H. unfold ttl_files, readdir. rewrite H, map_to_list_empty.
  reflexivity.
Qed.

Lemma after_unlink_none fl w : ttl_files w = [] -> after_unlink fl w = files w.
Proof. intros H. unfold after_unlink, deleted. rewrite H. reflexivity. Qed.

(** The two ways [createGrammar] runs. *)
Lemma createGrammar_exists fl _ref w :
  is_Some (files w !! makeTtlGrammarFilenameAbsoulute w (ttlFilename _ref)) ->
  createGrammar fl _ref w
  = (Resolved None,
     log (FsAccess (makeTtlGrammarFilenameAbsoulute w (ttlFilename _ref))) w).
Proof.
  intros H. unfold createGrammar, doesGrammarFileExist.
  rewrite bool_decide_eq_true_2 by exact H. reflexivity.
Qed.

Lemma createGrammar_steps fl _ref w :
  files w !! makeTtlGrammarFilenameAbsoulute w (ttlFilename _ref) = None ->
  createGrammar fl _ref w
  = match readdir_error fl with
    | Some err => (Rejected err, log (AddWarning err) (listed w _ref))
    | None =>
        match unlink_throws fl, ttl_files w with
        | Some err, n :: _ =>
            (Rejected err, log (AddWarning err) (unlink_refused w _ref n))
        | _, _ =>
            match writeFile_error fl with
            | Some err =>
                (Rejected err,
                 log (AddWarning err) (write_attempted fl w _ref))
            | None =>
                if loadGrammar_error fl then
                  let msg := "Unable to add Grammar to registry"
                             +:+ Js.str Js.newline
                             +:+ ttlFilenameAbsolute _ref in
                  (Rejected msg,
                   log (AddWarning msg) (load_attempted fl w _ref))
                else (Resolved (Some (ttlFilename _ref)), created fl w _ref)
            end
        end
    end.
Proof.
  intros H. unfold createGrammar, doesGrammarFileExist.
  rewrite bool_decide_eq_false_2 by (rewrite H; apply is_Some_None).
  unfold removeTtlLanguageFiles, getTtlGrammarFiles, getGrammarFiles,
    removeGrammars, createGrammarFile, addGrammars, call.
  unfold mbind, host_bind, bind, ret.
  cbn [log set_registered set_files packagePath files registered trace].
  destruct (readdir_error fl) as [e|]; [reflexivity|].
  unfold getGrammarPath.
  cbn [log set_registered set_files packagePath files registered trace].
  fold (getGrammarPath w). fold (ttl_files w).
  destruct (unlink_throws fl) as [e|] eqn:Hth.
  - destruct (ttl_files w) as [|n names] eqn:Httl.
    + cbn [for_of]. unfold ret.
      unfold created, load_attempted, write_attempted, unlinked, listed.
      rewrite (after_unlink_none fl w Httl), Httl.
      cbn [map]. rewrite app_nil_r.
      destruct (writeFile_error fl) as [e'|]; [reflexivity|].
      destruct (loadGrammar_error fl); reflexivity.
    + rewrite (for_of_unlink_throws fl e n names _ Hth). reflexivity.
  - rewrite (for_of_unlink fl (ttl_files w) _ Hth).
    destruct (writeFile_error fl) as [e'|]; [reflexivity|].
    destruct (loadGrammar_error fl); reflexivity.
Qed.

Lemma publish_steps fl text w :
  files w !! makeTtlGrammarFilenameAbsoulute w
               (makeTtlGrammarFilename (generateTtlSHA256 text)) = None ->
  publish fl text w
  = match readdir_error fl with
    | Some err =>
        (Rejected err, log (AddWarning err) (listed w (grammarRef w text)))
    | None =>
        match unlink_throws fl, ttl_files w with
        | Some err, n :: _ =>
            (Rejected err,
             log (AddWarning err) (unlink_refused w (grammarRef w text) n))
        | _, _ =>
            match writeFile_error fl with
            | Some err =>
                (Rejected err,
                 log (AddWarning err)
                   (write_attempted fl w (grammarRef w text)))
            | None =>
                if loadGrammar_error fl then
                  let msg := "Unable to add Grammar to registry"
                             +:+ Js.str Js.newline
                             +:+ ttlFilenameAbsolute (grammarRef w text) in
                  (Rejected msg,
                   log (AddWarning msg)
                     (load_attempted fl w (grammarRef w text)))
                else (Resolved (Some (ttlFilename (grammarRef w text))),
                      created fl w (grammarRef w text))
            end
        end
    end.
Proof. intros H. apply createGrammar_steps. exact H. Qed.

(** Publishing again what is already there. *)
Lemma publish_again fl text w :
  is_Some (files w !! makeTtlGrammarFilenameAbsoulute w
             (makeTtlGrammarFilename (generateTtlSHA256 text))) ->
  publish fl text w
  = (Resolved None,
     log (FsAccess (makeTtlGrammarFilenameAbsoulute w
                      (makeTtlGrammarFilename (generateTtlSHA256 text)))) w).
Proof. intros H. apply (createGrammar_exists fl (grammarRef w text) w H). Qed.

(** Where a publication leaves the files, however it ends. *)
Lemma publish_files fl text w :
  packagePath (publish fl text w).2 = packagePath w
  /\ (files (publish fl text w).2 = files w
      \/ files (publish fl text w).2 = after_unlink fl w
      \/ files (publish fl text w).2
         = <[makeTtlGrammarFilenameAbsoulute w
               (makeTtlGrammarFilename (generateTtlSHA256 text)) := text]>
             (after_unlink fl w)).
Proof.
  destruct (files w !! makeTtlGrammarFilenameAbsoulute w
                         (makeTtlGrammarFilename (generateTtlSHA256 text)))
    as [old|] eqn:E.
  - rewrite publish_again by (rewrite E; eauto). auto.
  - rewrite (publish_steps _ _ _ E).
    destruct (readdir_error fl); [auto|].
    destruct (unlink_throws fl), (ttl_files w);
      (destruct (writeFile_error fl);
       [auto|destruct (loadGrammar_error fl); auto 10]) || auto.
Qed.

(** A publication that resolves leaves the file of its text in place. *)
Lemma publish_resolved_file fl text w r w' :
  publish fl text w = (Resolved r, w') ->
  packagePath w' = packagePath w
  /\ is_Some (files w' !! makeTtlGrammarFilenameAbsoulute w
                (makeTtlGrammarFilename (generateTtlSHA256 text)))
  /\ (r = None
      \/ r = Some (makeTtlGrammarFilename (generateTtlSHA256 text))).
Proof.
  destruct (files w !! makeTtlGrammarFilenameAbsoulute w
                         (makeTtlGrammarFilename (generateTtlSHA256 text)))
    as [old|] eqn:E.
  - rewrite publish_again by (rewrite E; eauto).
    intros [= <- <-]. cbn [files log packagePath]. rewrite E. eauto.
  - rewrite (publish_steps _ _ _ E).
    destruct (readdir_error fl); [discriminate|].
    assert (Hend :
      match writeFile_error fl with
      | Some err =>
          (Rejected err,
           log (AddWarning err) (write_attempted fl w (grammarRef w text)))
      | None =>
          if loadGrammar_error fl then
            let msg := "Unable to add Grammar to registry"
                       +:+ Js.str Js.newline
                       +:+ ttlFilenameAbsolute (grammarRef w text) in
            (Rejected msg,
             log (AddWarning msg) (load_attempted fl w (grammarRef w text)))
          else (Resolved (Some (ttlFilename (grammarRef w text))),
                created fl w (grammarRef w text))
      end = (Resolved r, w') ->
      packagePath w' = packagePath w
      /\ is_Some (files w' !! makeTtlGrammarFilenameAbsoulute w
                    (makeTtlGrammarFilename (generateTtlSHA256 text)))
      /\ (r = None
          \/ r = Some (makeTtlGrammarFilename (generateTtlSHA256 text)))).
    { destruct (writeFile_error fl); [discriminate|].
      destruct (loadGrammar_error fl); [discriminate|].
      intros [= <- <-]. split; [reflexivity|]. split; [|auto].
      cbn. rewrite lookup_insert_eq. eauto. }
    destruct (unlink_throws fl), (ttl_files w);
      first [exact Hend | discriminate].
Qed.

(** With a host that carries out every deletion, a directory that
    holds at most one generated file still does after a publication,
    however it ends. *)
Lemma publish_at_most_one fl text w :
  unlink_reliable fl ->
  at_most_one_ttl w -> at_most_one_ttl (publish fl text w).2.
Proof.
  intros Hrel Hone. unfold at_most_one_ttl.
  destruct (publish_files fl text w) as [Hpkg [Hf|[Hf|Hf]]].
  - rewrite (ttl_files_eq w _ Hpkg Hf). exact Hone.
  - unfold ttl_files, getGrammarPath. rewrite Hpkg, Hf.
    fold (getGrammarPath w).
    replace (filter _ _) with (@nil string); [cbn; lia|].
    symmetry. apply elem_of_nil_inv. intros n Hn.
    apply elem_of_ttl_after_unlink in Hn as [_ Hn].
    rewrite Hrel in Hn. discriminate.
  - unfold ttl_files, getGrammarPath. rewrite Hpkg, Hf.
    fold (getGrammarPath w). unfold makeTtlGrammarFilenameAbsoulute.
    rewrite (NoDup_only _ (makeTtlGrammarFilename (generateTtlSHA256 text)));
      [cbn; lia|apply NoDup_filter, NoDup_readdir|].
    intros n.
    rewrite elem_of_ttl_insert
      by auto using ttlFilename_is_ttl, ttlFilename_plain.
    rewrite elem_of_ttl_after_unlink, Hrel. split; [|auto].
    intros [?|[_ ?]]; [assumption|discriminate].
Qed.

(** A publication that runs to its end on a host that answers
    without error, and one whose clean-up the runtime refuses. *)
Lemma publish_created fl text w :
  files w !! makeTtlGrammarFilenameAbsoulute w
               (makeTtlGrammarFilename (generateTtlSHA256 text)) = None ->
  readdir_error fl = None ->
  unlink_throws fl = None \/ ttl_files w = [] ->
  writeFile_error fl = None ->
  loadGrammar_error fl = false ->
  publish fl text w
  = (Resolved (Some (makeTtlGrammarFilename (generateTtlSHA256 text))),
     created fl w (grammarRef w text)).
Proof.
  intros Habs Hr Hu Hw Hl. rewrite (publish_steps _ _ _ Habs), Hr, Hw, Hl.
  destruct Hu as [-> | ->]; [reflexivity|].
  destruct (unlink_throws fl); reflexivity.
Qed.

Lemma publish_refused fl text w err n names :
  files w !! makeTtlGrammarFilenameAbsoulute w
               (makeTtlGrammarFilename (generateTtlSHA256 text)) = None ->
  readdir_error fl = None ->
  unlink_throws fl = Some err ->
  ttl_files w = n :: names ->
  publish fl text w
  = (Rejected err,
     log (AddWarning err) (unlink_refused w (grammarRef w text) n)).
Proof.
  intros Habs Hr Hu Hn. rewrite (publish_steps _ _ _ Habs), Hr, Hu, Hn.
  reflexivity.
Qed.

(** The generated files once the new file is written: the new one and
    those the host failed to delete. *)
Lemma elem_of_ttl_created fl text w n :
  n ∈ ttl_files (created fl w (grammarRef w text)) <->
  n = makeTtlGrammarFilename (generateTtlSHA256 text)
  \/ (n ∈ ttl_files w
      /\ unlink_fails fl (path_resolve (getGrammarPath w) n) = true).
Proof.
  change (ttl_files (created fl w (grammarRef w text)))
    with (filter (fun f => is_ttl f)
            (readdir (getGrammarPath w)
               (<[path_resolve (getGrammarPath w)
                    (makeTtlGrammarFilename (generateTtlSHA256 text))
                  := text]> (after_unlink fl w)))).
  rewrite elem_of_ttl_insert
    by auto using ttlFilename_is_ttl, ttlFilename_plain.
  rewrite elem_of_ttl_after_unlink. reflexivity.
Qed.

(** *** What the host has seen *)

Lemma config_reads_unlink dir names :
  config_reads (map (fun n => FsUnlink (path_resolve dir n)) names) = [].
Proof. induction names; [reflexivity|assumption]. Qed.

Lemma trace_listed w _ref :
  trace (listed w _ref) = trace w ++ steps_listed w _ref.
Proof.
  unfold listed, steps_listed. cbn [trace log set_registered].
  rewrite <- !app_assoc. reflexivity.
Qed.

Lemma trace_unlinked fl w _ref :
  trace (unlinked fl w _ref)
  = trace w
    ++ steps_listed w _ref
    ++ map (fun n => FsUnlink (path_resolve (getGrammarPath w) n))
         (ttl_files w).
Proof.
  unfold unlinked. cbn [trace]. rewrite trace_listed, <- app_assoc.
  reflexivity.
Qed.

Lemma createGrammar_trace fl _ref w :
  exists tr,
    trace (createGrammar fl _ref w).2 = trace w ++ tr
    /\ config_reads tr = [].
Proof.
  destruct (files w !! makeTtlGrammarFilenameAbsoulute w (ttlFilename _ref))
    as [old|] eqn:E.
  { rewrite createGrammar_exists by (rewrite E; eauto).
    eexists. split; reflexivity. }
  rewrite (createGrammar_steps _ _ _ E).
  pose proof (trace_listed w _ref) as Hl.
  pose proof (trace_unlinked fl w _ref) as Hu.
  pose proof (config_reads_unlink (getGrammarPath w) (ttl_files w)) as Hcr.
  assert (Hend : exists tr,
    trace (match writeFile_error fl with
           | Some err =>
               (Rejected err, log (AddWarning err) (write_attempted fl w _ref))
           | None =>
               if loadGrammar_error fl then
                 let msg := "Unable to add Grammar to registry"
                            +:+ Js.str Js.newline
                            +:+ ttlFilenameAbsolute _ref in
                 (Rejected msg,
                  log (AddWarning msg) (load_attempted fl w _ref))
               else (Resolved (Some (ttlFilename _ref)), created fl w _ref)
           end).2 = trace w ++ tr
    /\ config_reads tr = []).
  { destruct (writeFile_error fl) as [e|]; [|destruct (loadGrammar_error fl)];
      cbv zeta;
      cbn [snd trace log set_files set_registered created load_attempted
           write_attempted];
      rewrite Hu, <- !app_assoc;
      (eexists; split; [reflexivity|]);
      unfold config_reads in *; rewrite !omap_app, Hcr; reflexivity. }
  destruct (readdir_error fl) as [e|].
  { exists (steps_listed w _ref ++ [AddWarning e]).
    cbn [snd trace log]. rewrite Hl, <- app_assoc. split; reflexivity. }
  destruct (unlink_throws fl) as [e|]; [|exact Hend].
  destruct (ttl_files w) as [|n names]; [exact Hend|].
  exists (steps_listed w _ref
          ++ [FsUnlink (path_resolve (getGrammarPath w) n); AddWarning e]).
  cbn [snd trace log unlink_refused]. rewrite Hl, <- !app_assoc.
  split; reflexivity.
Qed.

(** *** How a creation ends *)

Lemma createGrammar_resolved fl _ref w v w' :
  files w !! makeTtlGrammarFilenameAbsoulute w (ttlFilename _ref) = None ->
  createGrammar fl _ref w = (Resolved v, w') ->
  v = Some (ttlFilename _ref)
  /\ w' = created fl w _ref
  /\ readdir_error fl = None
  /\ (unlink_throws fl = None \/ ttl_files w = [])
  /\ writeFile_error fl = None
  /\ loadGrammar_error fl = false.
Proof.
  intros E. rewrite (createGrammar_steps _ _ _ E).
  destruct (readdir_error fl); [discriminate|].
  destruct (unlink_throws fl) as [e|] eqn:Hu;
    [destruct (ttl_files w) as [|n names] eqn:Ht; [|discriminate]|];
    (destruct (writeFile_error fl); [discriminate|]);
    (destruct (loadGrammar_error fl); [discriminate|]);
    intros [= <- <-]; auto 10.
Qed.

Lemma createGrammar_rejected_cases fl _ref w msg w' :
  files w !! makeTtlGrammarFilenameAbsoulute w (ttlFilename _ref) = None ->
  createGrammar fl _ref w = (Rejected msg, w') ->
  (readdir_error fl = Some msg /\ w' = log (AddWarning msg) (listed w _ref))
  \/ (readdir_error fl = None
      /\ exists n names,
           unlink_throws fl = Some msg /\ ttl_files w = n :: names
           /\ w' = log (AddWarning msg) (unlink_refused w _ref n))
  \/ (readdir_error fl = None
      /\ w' = log (AddWarning msg) (write_attempted fl w _ref))
  \/ (readdir_error fl = None
      /\ w' = log (AddWarning msg) (load_attempted fl w _ref)).
Proof.
  intros E. rewrite (createGrammar_steps _ _ _ E).
  destruct (readdir_error fl) as [e|]; [intros [= <- <-]; auto|].
  assert (Hend :
    match writeFile_error fl with
    | Some err =>
        (Rejected err, log (AddWarning err) (write_attempted fl w _ref))
    | None =>
        if loadGrammar_error fl then
          let msg := "Unable to add Grammar to registry"
                     +:+ Js.str Js.newline +:+ ttlFilenameAbsolute _ref in
          (Rejected msg, log (AddWarning msg) (load_attempted fl w _ref))
        else (Resolved (Some (ttlFilename _ref)), created fl w _ref)
    end = (Rejected msg, w') ->
    w' = log (AddWarning msg) (write_attempted fl w _ref)
    \/ w' = log (AddWarning msg) (load_attempted fl w _ref)).
  { destruct (writeFile_error fl); [intros [= <- <-]; auto|].
    destruct (loadGrammar_error fl); [intros [= <- <-]; auto|discriminate]. }
  destruct (unlink_throws fl) as [e|] eqn:Hu;
    [destruct (ttl_files w) as [|n names] eqn:Ht|].
  - intros H. destruct (Hend H); auto 10.
  - intros [= <- <-]. right. left. split; [reflexivity|]. eauto 10.
  - intros H. destruct (Hend H); auto 10.
Qed.

(** *** Sample data *)

Lemma publish_fresh text :
  publish no_faults text fresh_world
  = (Resolved (Some (makeTtlGrammarFilename (generateTtlSHA256 text))),
     (publish no_faults text fresh_world).2).
Proof.
  rewrite publish_steps by apply lookup_empty. reflexivity.
Qed.

Example nameA_digest :
  makeTtlGrammarFilename (generateTtlSHA256 textA)
  = "ttl-0b3d6610858695eed73dff11d0a960fa6c11a5e69dc6516b7e8d4e750f2cb3ea.json".
Proof. vm_compute. reflexivity. Qed.

Example nameB_digest :
  makeTtlGrammarFilename (generateTtlSHA256 textB)
  = "ttl-eda827b9678b9b997fb8762694f1b9c63acf796f7c9e6236f032f202101acc6c.json".
Proof. vm_compute. reflexivity. Qed.

Lemma nameA_nameB :
  makeTtlGrammarFilename (generateTtlSHA256 textA)
  <> makeTtlGrammarFilename (generateTtlSHA256 textB).
Proof. rewrite nameA_digest, nameB_digest. discriminate. Qed.

(** The directory after the first document was published. *)
Lemma after_A_files :
  packagePath after_A = packagePath fresh_world
  /\ files after_A
     = <[makeTtlGrammarFilenameAbsoulute fresh_world
           (makeTtlGrammarFilename (generateTtlSHA256 textA)) := textA]> ∅.
Proof.
  unfold after_A.
  rewrite (publish_created no_faults textA fresh_world (lookup_empty _)
             eq_refl (or_introl eq_refl) eq_refl eq_refl).
  split; [reflexivity|].
  cbn [snd files created load_attempted log set_files set_registered].
  rewrite (after_unlink_none no_faults fresh_world
             (ttl_files_empty fresh_world eq_refl)).
  reflexivity.
Qed.

Lemma after_A_ttl :
  ttl_files after_A = [makeTtlGrammarFilename (generateTtlSHA256 textA)].
Proof.
  destruct after_A_files as [Hpkg Hf]. unfold ttl_files, getGrammarPath.
  rewrite Hpkg, Hf. fold (getGrammarPath fresh_world).
  unfold makeTtlGrammarFilenameAbsoulute.
  apply NoDup_only; [apply NoDup_filter, NoDup_readdir|]. intros n.
  rewrite elem_of_ttl_insert
    by auto using ttlFilename_is_ttl, ttlFilename_plain.
  split; [|auto]. intros [?|Hn]; [assumption|].
  apply elem_of_ttl in Hn as (_ & [x Hx] & _).
  rewrite lookup_empty in Hx. discriminate.
Qed.

Lemma after_A_absent :
  files after_A
    !! makeTtlGrammarFilenameAbsoulute after_A
         (makeTtlGrammarFilename (generateTtlSHA256 textB))
  = None.
Proof.
  destruct after_A_files as [Hpkg Hf].
  unfold makeTtlGrammarFilenameAbsoulute, getGrammarPath. rewrite Hpkg, Hf.
  fold (getGrammarPath fresh_world).
  rewrite lookup_insert_ne; [apply lookup_empty|].
  intros E. apply path_resolve_inj in E. exact (nameA_nameB E).
Qed.

(** C1, as stated, fails: the first call resolves with the file name,
    the second call, which finds the file, resolves with nothing. *)
Lemma second_publish_resolves_undefined :
  (publish no_faults textA fresh_world).1
  = Resolved (Some (makeTtlGrammarFilename (generateTtlSHA256 textA)))
  /\ (publish no_faults textA after_A).1 = Resolved None
  /\ (publish no_faults textA after_A).1
     <> (publish no_faults textA fresh_world).1.
Proof.
  assert (H1 : (publish no_faults textA fresh_world).1
               = Resolved (Some (makeTtlGrammarFilename
                                   (generateTtlSHA256 textA))))
    by (rewrite publish_fresh; reflexivity).
  assert (H2 : (publish no_faults textA after_A).1 = Resolved None).
  { destruct (publish_resolved_file _ _ _ _ _ (publish_fresh textA))
      as (Hpkg & Hsome & _).
    fold after_A in Hpkg, Hsome. rewrite publish_again; [reflexivity|].
    unfold makeTtlGrammarFilenameAbsoulute, getGrammarPath in *.
    rewrite Hpkg. exact Hsome. }
  split; [exact H1|]. split; [exact H2|]. rewrite H1, H2. discriminate.
Qed.

(** C1, amended. After a call that created the file, a second call
    with the same text only checks that the file is there: the
    directory and the registry are as they were, the trace grows by
    that one check (no write, no registry call, no notification), and
    the promise resolves with no value.  The name the first call
    resolved with is the one derived from the digest of the text. *)
Theorem publish_twice fl1 fl2 text w name w1 :
  publish fl1 text w = (Resolved (Some name), w1) ->
  name = makeTtlGrammarFilename (generateTtlSHA256 text)
  /\ exists w2,
       publish fl2 text w1 = (Resolved None, w2)
       /\ files w2 = files w1
       /\ registered w2 = registered w1
       /\ trace w2
          = trace w1 ++ [FsAccess (makeTtlGrammarFilenameAbsoulute w1 name)].
Proof.
  intros Hp.
  destruct (publish_resolved_file _ _ _ _ _ Hp) as (Hpkg & Hsome & [Hr|Hr]);
    [discriminate|].
  injection Hr as ->. split; [reflexivity|].
  eexists. split; [|split; [|split]]; [apply publish_again|..]; try reflexivity.
  unfold makeTtlGrammarFilenameAbsoulute, getGrammarPath in *.
  rewrite Hpkg. exact Hsome.
Qed.

Lemma publish_twice_witness :
  exists w2,
    publish no_faults textA after_A = (Resolved None, w2)
    /\ files w2 = files after_A
    /\ registered w2 = registered after_A
    /\ trace w2
       = trace after_A
         ++ [FsAccess (makeTtlGrammarFilenameAbsoulute after_A
                         (makeTtlGrammarFilename (generateTtlSHA256 textA)))].
Proof.
  exact (proj2 (publish_twice no_faults no_faults textA fresh_world _ after_A
                  (publish_fresh textA))).
Defined.

(** C2. The claim fails on the code where a deletion fails, since
    [fs.unlink] is called without a callback.  The first document is
    published in a fresh directory.  Then the second is published on
    a host that fails to delete the file of the first: the call
    resolves with the name of the second, and the directory holds the
    files of both.  On a runtime that throws at a call of [fs.unlink]
    without callback the second publication rejects instead, and the
    file of the first stays the only one. *)
Theorem stale_file_survives :
  (publish no_faults textA fresh_world).1
  = Resolved (Some (makeTtlGrammarFilename (generateTtlSHA256 textA)))
  /\ (publish stuck_unlink textB after_A).1
     = Resolved (Some (makeTtlGrammarFilename (generateTtlSHA256 textB)))
  /\ makeTtlGrammarFilename (generateTtlSHA256 textA)
     ∈ ttl_files (publish stuck_unlink textB after_A).2
  /\ makeTtlGrammarFilename (generateTtlSHA256 textB)
     ∈ ttl_files (publish stuck_unlink textB after_A).2
  /\ makeTtlGrammarFilename (generateTtlSHA256 textA)
     <> makeTtlGrammarFilename (generateTtlSHA256 textB)
  /\ ~ at_most_one_ttl (publish stuck_unlink textB after_A).2
  /\ (publish strict_runtime textB after_A).1
     = Rejected "Callback must be a function"
  /\ ttl_files (publish strict_runtime textB after_A).2
     = [makeTtlGrammarFilename (generateTtlSHA256 textA)].
Proof.
  split; [rewrite publish_fresh; reflexivity|].
  pose proof (publish_created stuck_unlink textB after_A after_A_absent
                eq_refl (or_introl eq_refl) eq_refl eq_refl) as Hrun.
  pose proof (publish_refused strict_runtime textB after_A _ _ _
                after_A_absent eq_refl eq_refl after_A_ttl) as Hstop.
  pose proof nameA_nameB as Hne.
  assert (Hin : forall n,
    n ∈ ttl_files (publish stuck_unlink textB after_A).2 <->
    n = makeTtlGrammarFilename (generateTtlSHA256 textB)
    \/ n = makeTtlGrammarFilename (generateTtlSHA256 textA)).
  { intros n. rewrite Hrun. cbn [snd]. rewrite elem_of_ttl_created.
    pose proof after_A_ttl as E. rewrite E, list_elem_of_singleton.
    cbn [unlink_fails stuck_unlink].
    generalize (makeTtlGrammarFilename (generateTtlSHA256 textA)).
    generalize (makeTtlGrammarFilename (generateTtlSHA256 textB)).
    intros nB nA. split; [intros [H|[H _]]; auto|intros [H|H]; auto]. }
  split; [rewrite Hrun; reflexivity|].
  split; [apply Hin; right; reflexivity|].
  split; [apply Hin; left; reflexivity|].
  split; [exact Hne|]. split.
  - unfold at_most_one_ttl. intros Hlen.
    assert (HA := proj2 (Hin _) (or_intror eq_refl)).
    assert (HB := proj2 (Hin _) (or_introl eq_refl)).
    revert Hne HA HB Hlen.
    generalize (ttl_files (publish stuck_unlink textB after_A).2).
    generalize (makeTtlGrammarFilename (generateTtlSHA256 textA)).
    generalize (makeTtlGrammarFilename (generateTtlSHA256 textB)).
    intros nB nA l Hne HA HB Hlen.
    destruct l as [|a [|b l]]; cbn in Hlen; [inversion HA| |lia].
    apply list_elem_of_singleton in HA, HB. apply Hne. congruence.
  - rewrite Hstop. split; [reflexivity|]. cbn [snd].
    rewrite <- after_A_ttl. apply ttl_files_eq; reflexivity.
Qed.

(** The owned directory is what the invariant rests on as well: where
    something else has left a second file with the generated prefix,
    a publication that finds its own file keeps both. *)
Example foreign_files_stay :
  (publish no_faults textA foreign_world).1 = Resolved None
  /\ ~ at_most_one_ttl (publish no_faults textA foreign_world).2.
Proof.
  assert (Hne : makeTtlGrammarFilename (generateTtlSHA256 textA)
                <> "ttl-old.json")
    by (rewrite nameA_digest; discriminate).
  assert (Hrun := publish_again no_faults textA foreign_world).
  rewrite Hrun.
  2:{ cbn [files foreign_world]. unfold makeTtlGrammarFilenameAbsoulute.
      change (getGrammarPath foreign_world) with "/p/grammars".
      rewrite lookup_insert_eq. eauto. }
  split; [reflexivity|]. unfold at_most_one_ttl. cbn [snd].
  assert (H1 : makeTtlGrammarFilename (generateTtlSHA256 textA)
               ∈ ttl_files foreign_world).
  { apply elem_of_ttl. split; [apply ttlFilename_is_ttl|].
    split; [|apply ttlFilename_plain].
    change (getGrammarPath foreign_world) with "/p/grammars".
    cbn [files foreign_world]. rewrite lookup_insert_eq. eauto. }
  assert (H2 : "ttl-old.json" ∈ ttl_files foreign_world).
  { apply elem_of_ttl. split; [reflexivity|]. split; [|reflexivity].
    change (getGrammarPath foreign_world) with "/p/grammars".
    cbn [files foreign_world].
    rewrite lookup_insert_ne
      by (intros E; apply path_resolve_inj in E; exact (Hne E)).
    change (path_resolve "/p/grammars" "ttl-old.json")
      with "/p/grammars/ttl-old.json".
    rewrite lookup_singleton_eq. eauto. }
  change (ttl_files (log (FsAccess (makeTtlGrammarFilenameAbsoulute
                                      foreign_world
                                      (makeTtlGrammarFilename
                                         (generateTtlSHA256 textA))))
                       foreign_world))
    with (ttl_files foreign_world).
  revert Hne H1 H2. generalize (ttl_files foreign_world).
  generalize (makeTtlGrammarFilename (generateTtlSHA256 textA)).
  intros nA l Hne H1 H2.
  destruct l as [|a [|b l]]; cbn; [inversion H1| |lia].
  apply list_elem_of_singleton in H1, H2. congruence.
Qed.

(** ** The debounce timer *)

Lemma run_app l1 l2 st : run (l1 ++ l2) st = run l2 (run l1 st).
Proof. apply foldl_app. Qed.

Lemma quiet_cons i l : quiet (i :: l) <-> is_observe i = false /\ quiet l.
Proof.
  unfold quiet. cbn [forallb]. rewrite andb_true_iff, negb_true_iff.
  reflexivity.
Qed.

Lemma quiet_app l1 l2 : quiet (l1 ++ l2) <-> quiet l1 /\ quiet l2.
Proof. unfold quiet. rewrite forallb_app, andb_true_iff. reflexivity. Qed.

Lemma elapsed_cons i l :
  elapsed (i :: l) = (if is_tick i then 1 else 0) + elapsed l.
Proof. unfold elapsed. destruct i; reflexivity. Qed.

Lemma observe_arms timeout st :
  owned st ->
  timers (observeTtlConfig timeout st)
  = [(nextTimer st, now st + Nat.max 1 timeout)]
  /\ configChangedTimer (observeTtlConfig timeout st) = Some (nextTimer st)
  /\ now (observeTtlConfig timeout st) = now st
  /\ taggedTemplateGrammar (observeTtlConfig timeout st)
     = taggedTemplateGrammar st
  /\ same_host st (observeTtlConfig timeout st).
Proof.
  intros Hown. unfold observeTtlConfig, same_host.
  assert (Hclear :
    timers (match configChangedTimer st with
            | Some id => clearTimeout id st
            | None => st
            end) = []).
  { destruct (configChangedTimer st) as [id|] eqn:E.
    - cbn. apply elem_of_nil_inv. intros t Ht.
      apply list_elem_of_filter in Ht as [Hne Ht].
      specialize (Hown t Ht). rewrite E in Hown. injection Hown as ->.
      rewrite Nat.eqb_refl in Hne. exact Hne.
    - destruct (timers st) as [|t l] eqn:Et; [reflexivity|].
      specialize (Hown t). rewrite Et, E in Hown.
      discriminate Hown. left. }
  destruct (configChangedTimer st); cbn in *; rewrite Hclear; auto 10.
Qed.

(** While the timeout is not due, inputs other than a call leave it
    pending and run no callback. *)
Lemma quiet_pending g : forall st id d,
  quiet g ->
  timers st = [(id, d)] ->
  now st + elapsed g < d ->
  timers (run g st) = [(id, d)]
  /\ configChangedTimer (run g st) = configChangedTimer st
  /\ now (run g st) = now st + elapsed g
  /\ same_host st (run g st).
Proof.
  unfold same_host.
  induction g as [|i g IH]; intros st id d Hq Ht Hd.
  - cbn. rewrite Nat.add_0_r. auto 10.
  - apply quiet_cons in Hq as [Hi Hq]. rewrite elapsed_cons in Hd |- *.
    change (run (i :: g) st) with (run g (step st i)).
    destruct i as [timeout|value|]; [discriminate| |].
    + destruct (IH (set_config value st) id d Hq Ht Hd)
        as (H1 & H2 & H3 & H4 & H5 & H6).
      cbn [is_tick step] in *. auto 10.
    + assert (Hstep : step st Tick
                      = set_clock (S (now st)) (nextTimer st) [(id, d)] st).
      { cbn [step]. unfold tick. rewrite Ht.
        cbn [filter list_filter]. unfold due. cbn [snd].
        cbn [is_tick] in Hd.
        assert (Hnd : Nat.leb d (S (now st)) = false)
          by (apply Nat.leb_gt; lia).
        rewrite !decide_bool_decide. rewrite Hnd. reflexivity. }
      rewrite Hstep.
      destruct (IH (set_clock (S (now st)) (nextTimer st) [(id, d)] st)
                  id d Hq eq_refl) as (H1 & H2 & H3 & H4 & H5 & H6).
      { cbn [now set_clock is_tick] in *. lia. }
      cbn [is_tick now set_clock] in *. split; [exact H1|].
      split; [exact H2|]. split; [lia|]. auto 10.
Qed.

(** With no timeout pending, inputs other than a call run no
    callback. *)
Lemma quiet_idle g : forall st,
  quiet g -> timers st = [] ->
  same_host st (run g st).
Proof.
  unfold same_host.
  induction g as [|i g IH]; intros st Hq Ht; [auto 10|].
  apply quiet_cons in Hq as [Hi Hq].
  change (run (i :: g) st) with (run g (step st i)).
  destruct i as [timeout|value|]; [discriminate| |].
  - apply (IH (set_config value st) Hq Ht).
  - assert (Hstep : step st Tick
                    = set_clock (S (now st)) (nextTimer st) [] st).
    { cbn [step]. unfold tick. rewrite Ht. reflexivity. }
    rewrite Hstep.
    apply (IH (set_clock (S (now st)) (nextTimer st) [] st) Hq eq_refl).
Qed.

(** A burst of calls runs no callback and ends with the timeout of
    its last call pending. *)
Lemma burst_pending timeout gaps : forall st,
  owned st ->
  Forall (fun g => quiet g /\ elapsed g < Nat.max 1 timeout) gaps ->
  exists id,
    timers (run (burst timeout gaps) st)
    = [(id, now (run (burst timeout gaps) st) + Nat.max 1 timeout)]
    /\ same_host st (run (burst timeout gaps) st).
Proof.
  unfold burst, same_host.
  induction gaps as [|g gaps IH]; intros st Hown Hgaps.
  - cbn [flat_map app run foldl step].
    destruct (observe_arms timeout st Hown) as (H1 & H2 & H3 & H4 & H5).
    exists (nextTimer st). rewrite H3. auto 10.
  - apply Forall_cons in Hgaps as [[Hq Hlt] Hgaps].
    cbn [flat_map]. rewrite <- !app_assoc, <- app_comm_cons.
    change (run (Observe timeout :: ?l) st)
      with (run l (observeTtlConfig timeout st)).
    rewrite run_app.
    destruct (observe_arms timeout st Hown) as (H1 & H2 & H3 & H4 & H5 & H6 & H7).
    destruct (quiet_pending g _ _ _ Hq H1) as (G1 & G2 & G3 & G4 & G5 & G6);
      [lia|].
    destruct (IH (run g (observeTtlConfig timeout st))) as (id & I1 & I2 & I3 & I4);
      [|exact Hgaps|].
    { intros t Ht. rewrite G1 in Ht.
      apply list_elem_of_singleton in Ht as ->. rewrite G2, H2. reflexivity. }
    exists id. split; [exact I1|]. repeat split; congruence.
Qed.

(** The callback adds to the world a read of the configuration and
    nothing else that reads it. *)
Lemma configChanged_reads st :
  config_reads (trace (world (configChanged st)))
  = config_reads (trace (world st)) ++ [taggedTemplateGrammar st].
Proof.
  unfold configChanged.
  destruct (createGrammarText _ _) as [err|grammarText]; cbn [world set_world].
  - cbn [log trace]. unfold config_reads. rewrite !omap_app. cbn.
    rewrite app_nil_r. reflexivity.
  - destruct (createGrammar_trace (faults st)
                (grammarRef (log (ConfigGet (taggedTemplateGrammar st))
                               (world st)) grammarText)
                (log (ConfigGet (taggedTemplateGrammar st)) (world st)))
      as (tr & -> & Hcr).
    cbn [log trace]. unfold config_reads in *. rewrite !omap_app, Hcr. cbn.
    rewrite app_nil_r. reflexivity.
Qed.

Lemma configChanged_same_host st st' :
  same_host st st' ->
  taggedTemplateGrammar st' = taggedTemplateGrammar st ->
  world (configChanged st') = world (configChanged st).
Proof.
  intros (Hw & Hg & Hf) Hc. unfold configChanged.
  rewrite Hw, Hg, Hf, Hc.
  destruct (createGrammarText _ _); reflexivity.
Qed.

(** C8. Let the scheduler be called [N >= 1] times, each call coming
    before the quiet period of the previous one has elapsed, and let
    no call follow.  Until the quiet period of the last call has
    elapsed nothing is published.  On the millisecond that completes
    it the callback runs, on the configuration as it stands at that
    moment.  It runs that once: whatever follows, short of a new
    call, the host has seen exactly one more read of the
    configuration. *)
Theorem debounce_burst timeout st gaps before after :
  owned st ->
  Forall (fun g => quiet g /\ elapsed g < Nat.max 1 timeout) gaps ->
  quiet before ->
  S (elapsed before) = Nat.max 1 timeout ->
  quiet after ->
  world (run (burst timeout gaps ++ before) st) = world st
  /\ world (run (burst timeout gaps ++ before ++ Tick :: after) st)
     = world (configChanged (run (burst timeout gaps ++ before) st))
  /\ config_reads
       (trace (world (run (burst timeout gaps ++ before ++ Tick :: after) st)))
     = config_reads (trace (world st))
       ++ [taggedTemplateGrammar (run (burst timeout gaps ++ before) st)].
Proof.
  intros Hown Hgaps Hqb Hb Hqa.
  destruct (burst_pending timeout gaps st Hown Hgaps) as (id & Ht & Hs).
  destruct (quiet_pending before _ _ _ Hqb Ht) as (B1 & B2 & B3 & B4);
    [lia|].
  rewrite <- run_app in B1, B2, B3, B4.
  set (s1 := run (burst timeout gaps ++ before) st) in *.
  assert (Hs1 : world s1 = world st).
  { destruct Hs as (? & ? & ?), B4 as (? & ? & ?). congruence. }
  assert (Hfire : world (run (burst timeout gaps ++ before ++ Tick :: after) st)
                  = world (configChanged s1)).
  { rewrite app_assoc, run_app. fold s1.
    change (run (Tick :: after) s1) with (run after (tick s1)).
    assert (Htick : tick s1
                    = configChanged
                        (set_clock (S (now s1)) (nextTimer s1) [] s1)).
    { unfold tick. rewrite B1. cbn [filter list_filter]. unfold due. cbn [snd].
      assert (Hd : Nat.leb (now (run (burst timeout gaps) st)
                            + Nat.max 1 timeout) (S (now s1)) = true)
        by (apply Nat.leb_le; lia).
      rewrite !decide_bool_decide. rewrite Hd. reflexivity. }
    rewrite Htick.
    destruct (quiet_idle after
                (configChanged (set_clock (S (now s1)) (nextTimer s1) [] s1))
                Hqa) as (A1 & _).
    { unfold configChanged.
      destruct (createGrammarText _ _); reflexivity. }
    rewrite A1. apply configChanged_same_host; [|reflexivity].
    repeat split. }
  split; [exact Hs1|]. split; [exact Hfire|].
  rewrite Hfire, configChanged_reads, Hs1. reflexivity.
Qed.

(** Any quiet stretch that lasts the quiet period splits as the
    theorem wants it. *)
Lemma quiet_split rest : forall n,
  quiet rest -> n < elapsed rest ->
  exists before after,
    rest = before ++ Tick :: after
    /\ quiet before /\ elapsed before = n /\ quiet after.
Proof.
  induction rest as [|i rest IH]; intros n Hq Hn; [cbn in Hn; lia|].
  apply quiet_cons in Hq as [Hi Hq]. rewrite elapsed_cons in Hn.
  destruct i as [t|v|]; [discriminate| |]; cbn [is_tick] in Hn.
  - destruct (IH n Hq Hn) as (b & a & -> & Hb & He & Ha).
    exists (SetConfig v :: b), a. split; [reflexivity|].
    split; [apply quiet_cons; auto|].
    split; [rewrite elapsed_cons; exact He|exact Ha].
  - destruct n as [|n].
    + exists [], rest. repeat split; auto.
    + destruct (IH n Hq) as (b & a & -> & Hb & He & Ha); [lia|].
      exists (Tick :: b), a. split; [reflexivity|].
      split; [apply quiet_cons; auto|].
      split; [rewrite elapsed_cons; cbn [is_tick]; lia|exact Ha].
Qed.

(** The hypothesis on the state is an invariant of the instance: it
    holds when no timeout is pending, and every input keeps it. *)
Lemma callbacks_keep_timers (fired : list (nat * nat)) : forall st,
  timers (foldl (fun st _ => configChanged st) st fired) = timers st
  /\ configChangedTimer (foldl (fun st _ => configChanged st) st fired)
     = configChangedTimer st.
Proof.
  induction fired as [|t fired IH]; intros st; [auto|].
  cbn [foldl]. destruct (IH (configChanged st)) as [-> ->].
  unfold configChanged. destruct (createGrammarText _ _); auto.
Qed.

Lemma owned_step st i : owned st -> owned (step st i).
Proof.
  intros Hown. destruct i as [timeout|value|]; cbn [step].
  - destruct (observe_arms timeout st Hown) as (Ht & Hc & _).
    intros t Hin. rewrite Ht in Hin.
    apply list_elem_of_singleton in Hin as ->. exact Hc.
  - exact Hown.
  - unfold tick. intros t Hin.
    destruct (callbacks_keep_timers
                (filter (fun x => due (S (now st)) x) (timers st))
                (set_clock (S (now st)) (nextTimer st)
                   (filter (fun x => negb (due (S (now st)) x)) (timers st))
                   st)) as [Ht Hc].
    rewrite Ht in Hin. rewrite Hc. cbn [timers set_clock] in Hin.
    apply list_elem_of_filter in Hin as [_ Hin]. apply (Hown t Hin).
Qed.

Lemma owned_run inputs : forall st, owned st -> owned (run inputs st).
Proof.
  induction inputs as [|i inputs IH]; intros st Hown; [exact Hown|].
  apply (IH (step st i)), owned_step, Hown.
Qed.

(** *** Five calls within the quiet period *)

Lemma debounce_burst_witness :
  config_reads
    (trace (world (run (burst 3 five_gaps ++ quiet_before ++ Tick :: quiet_after)
                     idle_state)))
  = [ [ "f:source.js" ] ].
Proof.
  refine (proj2 (proj2 (debounce_burst 3 idle_state five_gaps quiet_before
                          quiet_after _ _ _ _ _))).
  - intros t Ht. inversion Ht.
  - repeat (constructor; [split; [reflexivity|vm_compute; lia]|]). constructor.
  - reflexivity.
  - reflexivity.
  - reflexivity.
Defined.

(** * Further properties *)

(** ** Cutting a rule at its last colon *)

Lemma length_app (s1 s2 : string) :
  String.length (s1 +:+ s2) = String.length s1 + String.length s2.
Proof.
  induction s1 as [|a s1 IH]; [reflexivity|].
  rewrite app_cons. cbn [String.length]. rewrite IH. reflexivity.
Qed.

Lemma substring_all s : String.substring 0 (String.length s) s = s.
Proof. induction s as [|a s IH]; [reflexivity|]. cbn. rewrite IH. reflexivity. Qed.

Lemma substring_prefix s1 s2 :
  String.substring 0 (String.length s1) (s1 +:+ s2) = s1.
Proof.
  induction s1 as [|a s1 IH]; [destruct s2; reflexivity|].
  rewrite app_cons. cbn. rewrite IH. reflexivity.
Qed.

Lemma substring_suffix s1 s2 :
  String.substring (String.length s1) (String.length s2) (s1 +:+ s2) = s2.
Proof.
  induction s1 as [|a s1 IH]; [apply substring_all|].
  rewrite app_cons. cbn. exact IH.
Qed.

Lemma js_substring_prefix s1 s2 :
  Js.substring (s1 +:+ s2) 0 (Js.length s1) = s1.
Proof.
  unfold Js.substring, Js.clamp, Js.length. rewrite length_app.
  replace (Z.min (Z.max 0 _) (Z.max 0 _)) with 0%Z by lia.
  replace (Z.max (Z.max 0 _) (Z.max 0 _) - 0)%Z
    with (Z.of_nat (String.length s1)) by lia.
  rewrite Nat2Z.id. apply substring_prefix.
Qed.

Lemma js_substring_suffix s1 s2 :
  Js.substring_from (s1 +:+ s2) (Js.length s1) = s2.
Proof.
  unfold Js.substring_from, Js.substring, Js.clamp, Js.length.
  rewrite length_app.
  replace (Z.min (Z.max 0 _) (Z.max 0 _))
    with (Z.of_nat (String.length s1)) by lia.
  replace (Z.max (Z.max 0 _) (Z.max 0 _) - Z.of_nat (String.length s1))%Z
    with (Z.of_nat (String.length s2)) by lia.
  rewrite !Nat2Z.id. apply substring_suffix.
Qed.

Lemma lastIndexOf_from_last c s1 s2 : forall i found,
  has_char c s2 = false ->
  Js.lastIndexOf_from c (s1 +:+ String c s2) i found
  = (i + Js.length s1)%Z.
Proof.
  induction s1 as [|a s1 IH]; intros i found H.
  - rewrite app_nil. cbn [Js.lastIndexOf_from]. rewrite Ascii.eqb_refl.
    rewrite (lastIndexOf_from_absent _ _ _ _ H). unfold Js.length. cbn. lia.
  - rewrite app_cons. cbn [Js.lastIndexOf_from]. rewrite IH by exact H.
    unfold Js.length. cbn [String.length]. lia.
Qed.

(** A rule cut at its last colon. *)
Lemma cut_at_last_colon m s :
  has_char ":" s = false ->
  matchExpr (m +:+ String ":" s) = m /\ scopeRef (m +:+ String ":" s) = s.
Proof.
  intros H. unfold matchExpr, scopeRef, Js.lastIndexOf.
  rewrite (lastIndexOf_from_last _ _ _ _ _ H). split.
  - replace (0 + Js.length m)%Z with (Js.length m) by lia.
    apply js_substring_prefix.
  - change (m +:+ String ":" s) with (m +:+ (":" +:+ s)).
    rewrite <- append_assoc.
    replace (0 + Js.length m + 1)%Z with (Js.length (m +:+ ":"))
      by (unfold Js.length; rewrite length_app; cbn; lia).
    apply js_substring_suffix.
Qed.

Lemma last_occurrence c s :
  has_char c s = true ->
  exists s1 s2, s = s1 +:+ String c s2 /\ has_char c s2 = false.
Proof.
  induction s as [|a s IH]; [discriminate|].
  rewrite has_char_cons. intros H.
  destruct (has_char c s) eqn:Hs.
  - destruct (IH eq_refl) as (s1 & s2 & -> & H2).
    exists (String a s1), s2. auto.
  - rewrite orb_false_r in H. apply Ascii.eqb_eq in H as <-.
    exists EmptyString, s. auto.
Qed.

(** X1. The rule is cut at its last colon: whatever the match
    expression, colons included, a rule made of it, a colon and a
    text without colon is cut back into the two. *)
Theorem split_of_join m s :
  has_char ":" s = false ->
  matchExpr (m +:+ ":" +:+ s) = m /\ scopeRef (m +:+ ":" +:+ s) = s.
Proof. apply cut_at_last_colon. Qed.

Lemma split_of_join_witness :
  matchExpr (q "'a:b|c:d':source.css") = q "'a:b|c:d'"
  /\ scopeRef (q "'a:b|c:d':source.css") = "source.css".
Proof.
  apply (split_of_join (q "'a:b|c:d'") "source.css"). reflexivity.
Defined.

(** X2. A rule that has a colon is its match expression, a colon and
    its scope reference, and the scope reference has no colon. *)
Theorem join_of_split ttlString :
  has_char ":" ttlString = true ->
  ttlString = matchExpr ttlString +:+ ":" +:+ scopeRef ttlString
  /\ has_char ":" (scopeRef ttlString) = false.
Proof.
  intros H. destruct (last_occurrence _ _ H) as (m & s & -> & Hs).
  destruct (cut_at_last_colon m s Hs) as [-> ->]. auto.
Qed.

Lemma join_of_split_witness :
  "a:b:c.d" = matchExpr "a:b:c.d" +:+ ":" +:+ scopeRef "a:b:c.d"
  /\ has_char ":" (scopeRef "a:b:c.d") = false.
Proof. apply (join_of_split "a:b:c.d"). reflexivity. Defined.

(** ** Scope references that pass the test *)

Lemma string_forall_app p s1 s2 :
  string_forall p (s1 +:+ s2) = string_forall p s1 && string_forall p s2.
Proof.
  induction s1 as [|a s1 IH]; [reflexivity|].
  rewrite app_cons. unfold string_forall in *. cbn [list_ascii_of_string forallb].
  rewrite IH, andb_assoc. reflexivity.
Qed.

(** The strings of a pattern are made of characters of its classes. *)
Lemma lang_classes p r s :
  classes_within p r -> Regex.lang r s -> string_forall p s = true.
Proof.
  intros Hc Hl. induction Hl as
    [|cls a Ha|r1 r2 s1 s2 _ IH1 _ IH2|r1 r2 s _ IH|r1 r2 s _ IH
     |r|r a s1 s2 _ IH1 _ IH2]; cbn [classes_within] in Hc.
  - reflexivity.
  - unfold string_forall. cbn. rewrite (Hc a Ha). reflexivity.
  - destruct Hc as [H1 H2]. rewrite string_forall_app, IH1, IH2; auto.
  - destruct Hc as [H1 H2]. auto.
  - destruct Hc as [H1 H2]. auto.
  - reflexivity.
  - rewrite string_forall_app, IH1, IH2; auto.
Qed.

Lemma string_forall_has_char p c s :
  string_forall p s = true -> p c = false -> has_char c s = false.
Proof.
  intros Hs Hc. induction s as [|a s IH]; [reflexivity|].
  unfold string_forall in Hs. cbn [list_ascii_of_string forallb] in Hs.
  apply andb_true_iff in Hs as [Ha Hs]. rewrite has_char_cons, (IH Hs).
  destruct (Ascii.eqb c a) eqn:E; [|reflexivity].
  apply Ascii.eqb_eq in E as ->. congruence.
Qed.

Lemma includeScope_first s :
  Regex.lang includeScopeRegExp s -> first_char Regex.word s.
Proof.
  unfold includeScopeRegExp, Regex.Opt. intros H.
  apply RegexFacts.lang_seq_inv in H as (s1 & s' & -> & H1 & H).
  apply RegexFacts.lang_seq_inv in H as (s2 & s3 & -> & H2 & H3).
  apply RegexFacts.lang_chr_inv in H3 as (a3 & -> & Ha3).
  apply RegexFacts.lang_star_inv in H1
    as [->|(a & t1 & t2 & -> & Hseg & _)].
  - rewrite app_nil. apply RegexFacts.lang_alt_inv in H2 as [H2|H2].
    + apply RegexFacts.lang_seq_inv in H2 as (u1 & u2 & -> & Hu & _).
      apply RegexFacts.lang_chr_inv in Hu as (b & -> & Hb).
      exists b. eexists. split; [rewrite !app_cons; reflexivity|exact Hb].
    + apply RegexFacts.lang_eps_inv in H2 as ->. rewrite app_nil.
      exists a3, EmptyString. auto.
  - apply RegexFacts.lang_seq_inv in Hseg as (u1 & u2 & E & Hu & _).
    apply RegexFacts.lang_chr_inv in Hu as (b & -> & Hb).
    rewrite app_cons in E. injection E as -> _.
    exists b. eexists. split; [rewrite !app_cons; reflexivity|].
    unfold Regex.word. rewrite Hb. reflexivity.
Qed.

Lemma includeScope_classes : classes_within scope_char includeScopeRegExp.
Proof.
  assert (Hw : forall c, Regex.word c = true -> scope_char c = true)
    by (intros c H; unfold scope_char; rewrite H; reflexivity).
  assert (Ha : forall c, Regex.alpha c = true -> scope_char c = true)
    by (intros c H; apply Hw; unfold Regex.word; rewrite H; reflexivity).
  assert (Hd : forall c, Regex.char "." c = true -> scope_char c = true)
    by (intros c H; unfold scope_char; rewrite H;
        destruct (Regex.word c); reflexivity).
  assert (Hh : forall c, Regex.char "#" c = true -> scope_char c = true)
    by (intros c H; unfold scope_char; rewrite H; apply orb_true_r).
  cbn. auto 20.
Qed.

(** X3. A scope reference that passes the test is made of word
    characters, dots and hash signs only and begins with a word
    character: it holds no double quote, no backslash and no line
    break, and the content name cut from it is not empty. *)
Theorem valid_scope_shape s :
  Regex.test_anchored includeScopeRegExp s = true ->
  string_forall scope_char s = true
  /\ has_char Js.dquote s = false
  /\ has_char Js.backslash s = false
  /\ has_char Js.newline s = false
  /\ match_before_hash s <> EmptyString.
Proof.
  unfold Regex.test_anchored. rewrite RegexFacts.matches_lang. intros H.
  assert (Hall := lang_classes _ _ _ includeScope_classes H).
  split; [exact Hall|].
  repeat (split; [apply (string_forall_has_char _ _ _ Hall); reflexivity|]).
  destruct (includeScope_first s H) as (a & t & -> & Ha).
  cbn [match_before_hash]. unfold Regex.char.
  destruct (Ascii.eqb a "#") eqn:E; [|discriminate].
  apply Ascii.eqb_eq in E as ->. discriminate Ha.
Qed.

Lemma valid_scope_shape_witness :
  string_forall scope_char "text.html.basic#inline" = true
  /\ has_char Js.dquote "text.html.basic#inline" = false
  /\ has_char Js.backslash "text.html.basic#inline" = false
  /\ has_char Js.newline "text.html.basic#inline" = false
  /\ match_before_hash "text.html.basic#inline" <> EmptyString.
Proof. apply (valid_scope_shape "text.html.basic#inline"). reflexivity. Defined.

(** ** Escaping a quoted regular expression *)

Lemma replace_escaped_quote_skip rep x t :
  Regex.char Js.backslash x = false \/ starts_with escaped_quote t = false ->
  replace_escaped_quote rep (String x t)
  = String x (replace_escaped_quote rep t).
Proof.
  intros H. destruct t as [|y [|z s']]; try reflexivity.
  cbn [replace_escaped_quote]. destruct H as [-> | H]; [reflexivity|].
  unfold starts_with, escaped_quote in H. cbn [strip_prefix] in H.
  unfold Regex.char.
  destruct (Ascii.eqb y Js.backslash) eqn:Ey;
    [|rewrite andb_false_r; reflexivity].
  rewrite (Ascii.eqb_sym Js.backslash y), Ey in H.
  destruct (Ascii.eqb z Js.dquote) eqn:Ez;
    [|rewrite andb_false_r; reflexivity].
  rewrite (Ascii.eqb_sym Js.dquote z), Ez in H. discriminate.
Qed.

Lemma doubled_cons a t :
  Js.replace_class preEscapedSlash (fun _ => backslashes 2) (String a t)
  = (if Regex.char Js.backslash a then backslashes 2 else Js.str a)
    +:+ Js.replace_class preEscapedSlash (fun _ => backslashes 2) t.
Proof. reflexivity. Qed.

(** Doubled backslashes never leave a backslash right before a
    double quote. *)
Lemma doubled_not_escaped_quote t :
  starts_with escaped_quote
    (Js.replace_class preEscapedSlash (fun _ => backslashes 2) t) = false.
Proof.
  destruct t as [|a t]; [reflexivity|]. rewrite doubled_cons.
  unfold Regex.char. destruct (Ascii.eqb a Js.backslash) eqn:E.
  - reflexivity.
  - unfold starts_with, escaped_quote, Js.str. rewrite app_cons.
    cbn [strip_prefix]. rewrite Ascii.eqb_sym, E. reflexivity.
Qed.

Lemma escapeRegExp_bounded n : forall m,
  String.length m <= n -> escapeRegExp m = regexp_escape m.
Proof.
  unfold escapeRegExp.
  induction n as [|n IH]; intros m Hn.
  - destruct m; [reflexivity|cbn in Hn; lia].
  - destruct m as [|a t]; [reflexivity|]. cbn [String.length] in Hn.
    rewrite doubled_cons. cbn [regexp_escape].
    destruct (Regex.char Js.backslash a) eqn:Ea.
    + change (backslashes 2 +:+ ?x)
        with (String Js.backslash (String Js.backslash x)).
      destruct t as [|b t'].
      * reflexivity.
      * destruct (Regex.char Js.dquote b) eqn:Eb.
        -- unfold Regex.char in Eb. apply Ascii.eqb_eq in Eb as ->.
           rewrite doubled_cons.
           replace (Regex.char Js.backslash Js.dquote) with false
             by reflexivity.
           change (Js.str Js.dquote +:+ ?x) with (String Js.dquote x).
           cbn [replace_escaped_quote].
           replace (Regex.char Js.backslash Js.backslash) with true
             by reflexivity.
           replace (Regex.char Js.dquote Js.dquote) with true by reflexivity.
           cbn [andb]. rewrite IH by (cbn [String.length] in Hn; lia).
           rewrite append_assoc. reflexivity.
        -- rewrite replace_escaped_quote_skip.
           2:{ right. rewrite doubled_cons. unfold starts_with, escaped_quote.
               cbn [strip_prefix].
               replace (Ascii.eqb Js.backslash Js.backslash) with true
                 by reflexivity.
               unfold Regex.char in *.
               destruct (Ascii.eqb b Js.backslash); unfold Js.str.
               - reflexivity.
               - rewrite app_cons. cbn [strip_prefix].
                 rewrite Ascii.eqb_sym, Eb. reflexivity. }
           rewrite replace_escaped_quote_skip
             by (right; apply doubled_not_escaped_quote).
           rewrite IH by lia. reflexivity.
    + change (Js.str a +:+ ?x) with (String a x).
      rewrite replace_escaped_quote_skip by (left; exact Ea).
      rewrite IH by lia. reflexivity.
Qed.

Lemma quotes_escaped_from_plain b t flag :
  Regex.char Js.dquote b = false ->
  quotes_escaped_from flag (String b t) = quotes_escaped_from false (String b t).
Proof. intros H. cbn [quotes_escaped_from]. rewrite H. reflexivity. Qed.

Lemma regexp_escape_decodes_bounded n : forall m,
  String.length m <= n ->
  json_unescape (regexp_escape m)
  = if quotes_escaped m && control_free m then Some m else None.
Proof.
  unfold quotes_escaped.
  induction n as [|n IH]; intros m Hn.
  - destruct m; [reflexivity|cbn in Hn; lia].
  - destruct m as [|a t]; [reflexivity|]. cbn [String.length] in Hn.
    cbn [regexp_escape]. destruct (Regex.char Js.backslash a) eqn:Ea.
    + unfold Regex.char in Ea. apply Ascii.eqb_eq in Ea as ->.
      destruct t as [|b t'].
      * reflexivity.
      * destruct (Regex.char Js.dquote b) eqn:Eb.
        -- unfold Regex.char in Eb. apply Ascii.eqb_eq in Eb as ->.
           change (backslashes 3 +:+ Js.str Js.dquote +:+ ?x)
             with (String Js.backslash (String Js.backslash
                     (String Js.backslash (String Js.dquote x)))).
           rewrite json_unescape_pair, json_unescape_quote.
           rewrite IH by (cbn [String.length] in Hn; lia).
           change (quotes_escaped_from false
                     (String Js.backslash (String Js.dquote t')))
             with (quotes_escaped_from false t').
           change (control_free (String Js.backslash (String Js.dquote t')))
             with (control_free t').
           destruct (quotes_escaped_from false t' && control_free t');
             reflexivity.
        -- change (backslashes 2 +:+ ?x)
             with (String Js.backslash (String Js.backslash x)).
           rewrite json_unescape_pair, IH by lia.
           change (quotes_escaped_from false
                     (String Js.backslash (String b t')))
             with (quotes_escaped_from true (String b t')).
           rewrite (quotes_escaped_from_plain b t' true Eb).
           change (control_free (String Js.backslash (String b t')))
             with (control_free (String b t')).
           destruct (quotes_escaped_from false (String b t')
                     && control_free (String b t')); reflexivity.
    + cbn [quotes_escaped_from]. rewrite Ea.
      destruct (Regex.char Js.dquote a) eqn:Eq.
      * cbn [json_unescape]. rewrite Ea, Eq. reflexivity.
      * rewrite (json_unescape_plain _ _ Ea Eq), IH by lia.
        rewrite control_free_cons.
        destruct (control a); [rewrite andb_false_r; reflexivity|].
        cbn [negb andb].
        destruct (quotes_escaped_from false t && control_free t); reflexivity.
Qed.

(** X4. In a quoted rule the two replacements double every backslash
    and put one more before a double quote that follows one.  A JSON
    reader gets the regular expression the user wrote from the result
    exactly when each of its double quotes follows a backslash and it
    holds no control character; otherwise the result is not the body
    of a JSON string: a bare double quote or a raw control character
    is left in it. *)
Theorem escapeRegExp_round_trip m :
  escapeRegExp m = regexp_escape m
  /\ json_unescape (escapeRegExp m)
     = if quotes_escaped m && control_free m then Some m else None.
Proof.
  assert (H : escapeRegExp m = regexp_escape m)
    by (apply (escapeRegExp_bounded (String.length m)); lia).
  split; [exact H|]. rewrite H.
  apply (regexp_escape_decodes_bounded (String.length m)). lia.
Qed.

(** ** The validator *)

Lemma onigurumaCheck_every_split pre b post regex :
  forallb (fun g => negb (is_babel g)) pre = true ->
  is_babel b = true ->
  onigurumaCheck_every (pre ++ b :: post) regex = scanner_verdict b regex.
Proof.
  intros Hpre Hb. induction pre as [|g pre IH]; cbn [app onigurumaCheck_every].
  - unfold is_babel in Hb. rewrite Hb. reflexivity.
  - cbn [forallb] in Hpre. apply andb_true_iff in Hpre as [Hg Hpre].
    unfold is_babel in Hg. apply negb_true_iff in Hg. rewrite Hg. auto.
Qed.

Lemma onigurumaCheck_every_none gs regex :
  forallb (fun g => negb (is_babel g)) gs = true ->
  onigurumaCheck_every gs regex = Ok false.
Proof.
  induction gs as [|g gs IH]; [reflexivity|]. cbn [forallb onigurumaCheck_every].
  intros H. apply andb_true_iff in H as [Hg H].
  unfold is_babel in Hg. apply negb_true_iff in Hg. rewrite Hg. auto.
Qed.

Lemma no_babel_never_throws grammars regex :
  no_babel grammars -> onigurumaCheck grammars regex = Ok false.
Proof.
  destruct grammars as [gs|]; [|reflexivity]. apply onigurumaCheck_every_none.
Qed.

(** The first Babel grammar of a list, if there is one. *)
Lemma first_babel gs :
  forallb (fun g => negb (is_babel g)) gs = true
  \/ exists pre b post,
       gs = pre ++ b :: post
       /\ forallb (fun g => negb (is_babel g)) pre = true
       /\ is_babel b = true.
Proof.
  induction gs as [|g gs IH]; [left; reflexivity|].
  destruct (is_babel g) eqn:Hg.
  - right. exists [], g, gs. auto.
  - destruct IH as [IH|(pre & b & post & -> & Hpre & Hb)].
    + left. cbn [forallb]. rewrite Hg, IH. reflexivity.
    + right. exists (g :: pre), b, post. cbn [forallb]. rewrite Hg, Hpre. auto.
Qed.

(** X5. The check is decided by the first grammar named Babel ES6
    JavaScript and by it alone: the grammars before it are passed
    over, those after it are never consulted, whatever their
    constructors would do. *)
Theorem onigurumaCheck_first_babel pre b post regex :
  forallb (fun g => negb (is_babel g)) pre = true ->
  is_babel b = true ->
  onigurumaCheck (Some (pre ++ b :: post)) regex = scanner_verdict b regex.
Proof. apply onigurumaCheck_every_split. Qed.

Lemma onigurumaCheck_first_babel_witness :
  onigurumaCheck (Some two_babel_registry) "(unclosed" = Ok true.
Proof.
  apply (onigurumaCheck_first_babel
           [ {| name := "Null Grammar";
                scannerConstructor := Some (fun _ => Some "no") |} ]
           {| name := "Babel ES6 JavaScript";
              scannerConstructor := Some (fun _ => None) |}
           [ {| name := "Babel ES6 JavaScript";
                scannerConstructor := Some (fun r => Some ("Error: " +:+ r)) |} ]
           "(unclosed"); reflexivity.
Defined.

Lemma createGrammarPatterns_quoted grammars ttlString :
  quoted_form ttlString = true ->
  createGrammarPatterns grammars ttlString
  = match onigurumaCheck grammars (quoted_regex ttlString) with
    | Throw err => Throw (MalformedRegex (quoted_regex ttlString) err)
    | Ok _ =>
        Ok (patternText (match_before_hash (scopeRef ttlString))
              (escapeRegExp (quoted_regex ttlString)) (scopeRef ttlString))
    end.
Proof.
  unfold quoted_form. rewrite !andb_true_iff, !negb_true_iff.
  intros [[Hlen Hscope] Hquoted].
  unfold createGrammarPatterns.
  fold (matchExpr ttlString) (scopeRef ttlString). fold (quoted_regex ttlString).
  rewrite Hlen, Hscope, Hquoted. cbn [orb negb].
  destruct (onigurumaCheck _ _); reflexivity.
Qed.

(** X6. Without a Babel grammar in the registry, or without a
    registry list at all, nothing is validated and nothing is
    refused: every quoted rule with a valid scope reference
    compiles. *)
Theorem createGrammarPatterns_unvalidated grammars ttlString :
  no_babel grammars ->
  quoted_form ttlString = true ->
  createGrammarPatterns grammars ttlString
  = Ok (patternText (match_before_hash (scopeRef ttlString))
          (escapeRegExp (quoted_regex ttlString)) (scopeRef ttlString)).
Proof.
  intros Hno Hq. rewrite (createGrammarPatterns_quoted _ _ Hq).
  rewrite (no_babel_never_throws _ _ Hno). reflexivity.
Qed.

Lemma createGrammarPatterns_unvalidated_witness :
  createGrammarPatterns None (q "'(unclosed':source.example")
  = Ok (patternText "source.example" "(unclosed" "source.example").
Proof.
  apply (createGrammarPatterns_unvalidated None
           (q "'(unclosed':source.example")); reflexivity.
Defined.

(** X7. A rule is refused as a malformed regular expression only in
    quoted form, with the text between the quotes in the message, and
    only because the constructor of the first Babel grammar of the
    registry threw on that text. *)
Theorem malformedRegex_origin grammars ttlString m err :
  createGrammarPatterns grammars ttlString = Throw (MalformedRegex m err) ->
  quoted_form ttlString = true
  /\ m = quoted_regex ttlString
  /\ exists pre b post ctor,
       grammars = Some (pre ++ b :: post)
       /\ forallb (fun g => negb (is_babel g)) pre = true
       /\ is_babel b = true
       /\ scannerConstructor b = Some ctor
       /\ ctor m = Some err.
Proof.
  intros H.
  assert (Hq : quoted_form ttlString = true).
  { revert H. unfold createGrammarPatterns, quoted_form.
    fold (matchExpr ttlString) (scopeRef ttlString).
    destruct (Js.length (matchExpr ttlString) <? 1)%Z; [discriminate|].
    destruct (Regex.test_anchored includeScopeRegExp _); [|discriminate].
    destruct (Regex.test_anchored quotedMatchStringRegExp _); [reflexivity|].
    destruct (Regex.test _ _); discriminate. }
  rewrite (createGrammarPatterns_quoted _ _ Hq) in H.
  destruct (onigurumaCheck grammars (quoted_regex ttlString)) as [e|v] eqn:Ho;
    [|discriminate].
  injection H as <- <-. split; [exact Hq|]. split; [reflexivity|].
  destruct grammars as [gs|]; [|discriminate]. cbn [onigurumaCheck] in Ho.
  destruct (first_babel gs) as [Hnone|(pre & b & post & -> & Hpre & Hb)].
  - rewrite (onigurumaCheck_every_none _ _ Hnone) in Ho. discriminate.
  - rewrite (onigurumaCheck_every_split _ _ _ _ Hpre Hb) in Ho.
    unfold scanner_verdict in Ho.
    destruct (scannerConstructor b) as [ctor|] eqn:Hc; [|discriminate].
    destruct (ctor (quoted_regex ttlString)) as [e'|] eqn:He; [|discriminate].
    injection Ho as ->. exists pre, b, post, ctor. auto 10.
Qed.

Lemma malformedRegex_origin_witness :
  quoted_form (q "'(unclosed':source.example") = true
  /\ "(unclosed" = quoted_regex (q "'(unclosed':source.example")
  /\ exists pre b post ctor,
       rejecting_registry = Some (pre ++ b :: post)
       /\ forallb (fun g => negb (is_babel g)) pre = true
       /\ is_babel b = true
       /\ scannerConstructor b = Some ctor
       /\ ctor "(unclosed" = Some "Error: bad pattern (unclosed".
Proof.
  apply (malformedRegex_origin rejecting_registry
           (q "'(unclosed':source.example")).
  reflexivity.
Defined.

(** ** The steps of a publication *)

Lemma unlinks_no_info dir names :
  existsb is_info (map (fun n => FsUnlink (path_resolve dir n)) names) = false.
Proof. induction names; auto. Qed.

Lemma shipped_world_absent :
  files shipped_world
    !! makeTtlGrammarFilenameAbsoulute shipped_world
         (makeTtlGrammarFilename (generateTtlSHA256 textA))
  = None.
Proof.
  assert (Hne : makeTtlGrammarFilename (generateTtlSHA256 textA)
                <> "ttl-0.json")
    by (rewrite nameA_digest; discriminate).
  unfold makeTtlGrammarFilenameAbsoulute.
  change (getGrammarPath shipped_world) with "/p/grammars".
  cbn [files shipped_world].
  rewrite lookup_insert_ne by discriminate.
  change "/p/grammars/ttl-0.json"
    with (path_resolve "/p/grammars" "ttl-0.json").
  apply lookup_singleton_ne.
  intros E. apply path_resolve_inj in E. congruence.
Qed.



(** X10. When [createGrammar] rejects, the last thing the host has seen
    is one warning that carries the message of the rejection, no
    notice of success was given, and no grammar is registered for the
    scope: the old one was removed before anything could fail.  When
    it is the listing that failed, no file was touched. *)
Theorem createGrammar_rejected fl _ref w msg w' :
  createGrammar fl _ref w = (Rejected msg, w') ->
  registered w' = None
  /\ (exists tr,
        trace w' = trace w ++ tr ++ [AddWarning msg]
        /\ existsb is_info tr = false)
  /\ (readdir_error fl = Some msg -> files w' = files w).
Proof.
  destruct (files w !! makeTtlGrammarFilenameAbsoulute w (ttlFilename _ref))
    as [old|] eqn:E.
  { rewrite createGrammar_exists by (rewrite E; eauto). discriminate. }
  intros H.
  pose proof (trace_listed w _ref) as Hl.
  pose proof (trace_unlinked fl w _ref) as Hul.
  pose proof (unlinks_no_info (getGrammarPath w) (ttl_files w)) as Hu.
  destruct (createGrammar_rejected_cases _ _ _ _ _ E H)
    as [[Hr ->]|[(Hr & n & names & _ & _ & ->)|[[Hr ->]|[Hr ->]]]].
  - split; [reflexivity|]. split; [|reflexivity].
    exists (steps_listed w _ref). split; [|reflexivity].
    cbn [trace log]. rewrite Hl, <- app_assoc. reflexivity.
  - split; [reflexivity|]. split; [|rewrite Hr; discriminate].
    exists (steps_listed w _ref
            ++ [FsUnlink (path_resolve (getGrammarPath w) n)]).
    split; [|reflexivity].
    cbn [trace log unlink_refused]. rewrite Hl, <- !app_assoc. reflexivity.
  - split; [reflexivity|]. split; [|rewrite Hr; discriminate].
    exists (steps_listed w _ref
            ++ map (fun n => FsUnlink (path_resolve (getGrammarPath w) n))
                 (ttl_files w)
            ++ [FsWriteFile (ttlFilenameAbsolute _ref) (grammarText _ref)]).
    split.
    + cbn [trace log write_attempted]. rewrite Hul, <- !app_assoc.
      reflexivity.
    + rewrite !existsb_app, Hu. reflexivity.
  - split; [reflexivity|]. split; [|rewrite Hr; discriminate].
    exists (steps_listed w _ref
            ++ map (fun n => FsUnlink (path_resolve (getGrammarPath w) n))
                 (ttl_files w)
            ++ [FsWriteFile (ttlFilenameAbsolute _ref) (grammarText _ref);
                LoadGrammar (ttlFilenameAbsolute _ref)]).
    split.
    + cbn [trace log set_files load_attempted write_attempted].
      rewrite Hul, <- !app_assoc. reflexivity.
    + rewrite !existsb_app, Hu. reflexivity.
Qed.

Lemma createGrammar_rejected_witness :
  registered (publish failing_readdir textA shipped_world).2 = None
  /\ files (publish failing_readdir textA shipped_world).2
     = files shipped_world.
Proof.
  pose proof (publish_steps failing_readdir textA shipped_world
                shipped_world_absent) as Hrun.
  cbn [readdir_error failing_readdir] in Hrun.
  destruct (createGrammar_rejected _ _ _ _ _ Hrun) as (H1 & _ & H3).
  rewrite Hrun. split; [exact H1|]. apply H3. reflexivity.
Defined.

(** X11. A publication, however it ends, changes no file but the
    generated ones of the grammar directory: a path that is not that
    of an entry of the directory with the generated prefix keeps what
    it held, or stays free. *)
Theorem publish_leaves_other_files fl text w p :
  (forall n, is_ttl n = true -> p <> path_resolve (getGrammarPath w) n) ->
  files (publish fl text w).2 !! p = files w !! p.
Proof.
  intros Hp. destruct (publish_files fl text w) as [_ [->|[->| ->]]].
  - reflexivity.
  - apply after_unlink_other, Hp.
  - rewrite lookup_insert_ne; [apply after_unlink_other, Hp|].
    intros E. symmetry in E. revert E. apply Hp, ttlFilename_is_ttl.
Qed.

Lemma publish_leaves_other_files_witness :
  files (publish no_faults textA shipped_world).2
    !! "/p/grammars/Babel Language.json"
  = Some "{}".
Proof.
  rewrite (publish_leaves_other_files no_faults textA shipped_world
             "/p/grammars/Babel Language.json").
  - reflexivity.
  - intros n Hn E.
    change "/p/grammars/Babel Language.json"
      with (path_resolve (getGrammarPath shipped_world) "Babel Language.json")
      in E.
    apply path_resolve_inj in E. subst n. discriminate Hn.
Defined.

(** X12. When the listing succeeds, what [removeTtlLanguageFiles]
    leaves depends on the runtime and on the host.  On a runtime that
    takes the calls of [fs.unlink], or when there is no generated
    file, it resolves: the generated files it leaves are those the
    host failed to delete, none when the host carries out every
    deletion; no other file has changed and the registry is
    untouched.  On a runtime that throws at such a call it rejects
    with that error at the first generated file, and no file has
    changed. *)
Theorem removeTtlLanguageFiles_outcome fl w :
  readdir_error fl = None ->
  (unlink_throws fl = None \/ ttl_files w = [] ->
   exists w',
     removeTtlLanguageFiles fl w = (Ok tt, w')
     /\ (forall n,
           n ∈ ttl_files w' <->
           n ∈ ttl_files w
           /\ unlink_fails fl (path_resolve (getGrammarPath w) n) = true)
     /\ (unlink_reliable fl -> ttl_files w' = [])
     /\ registered w' = registered w
     /\ (forall p,
           (forall n, is_ttl n = true ->
                      p <> path_resolve (getGrammarPath w) n) ->
           files w' !! p = files w !! p))
  /\ (forall err,
        unlink_throws fl = Some err -> ttl_files w <> [] ->
        exists w',
          removeTtlLanguageFiles fl w = (Throw err, w')
          /\ files w' = files w
          /\ registered w' = registered w).
Proof.
  intros Hfl.
  assert (Hrun : removeTtlLanguageFiles fl w
    = for_of (ttl_files w)
        (fun n w => unlink fl (makeTtlGrammarFilenameAbsoulute w n) w)
        (log (FsReaddir (getGrammarPath w)) w)).
  { unfold removeTtlLanguageFiles, getTtlGrammarFiles, getGrammarFiles.
    unfold mbind, host_bind, bind, ret. rewrite Hfl. reflexivity. }
  split.
  - intros Hu.
    assert (Hok : exists w',
      removeTtlLanguageFiles fl w = (Ok tt, w')
      /\ packagePath w' = packagePath w
      /\ files w' = after_unlink fl w
      /\ registered w' = registered w).
    { rewrite Hrun. destruct Hu as [Hu|Hu].
      - rewrite (for_of_unlink fl _ _ Hu). eexists. split; [reflexivity|].
        repeat split.
      - rewrite Hu. eexists. split; [reflexivity|].
        rewrite (after_unlink_none fl w Hu). repeat split. }
    destruct Hok as (w' & Hw' & Hpkg & Hf & Hreg). exists w'.
    split; [exact Hw'|].
    assert (Hin : forall n,
      n ∈ ttl_files w' <->
      n ∈ ttl_files w
      /\ unlink_fails fl (path_resolve (getGrammarPath w) n) = true).
    { intros n. unfold ttl_files at 1, getGrammarPath. rewrite Hpkg, Hf.
      apply elem_of_ttl_after_unlink. }
    split; [exact Hin|]. split.
    + intros Hrel. apply elem_of_nil_inv. intros n Hn.
      apply Hin in Hn as [_ Hn]. rewrite Hrel in Hn. discriminate.
    + split; [exact Hreg|]. intros p Hp. rewrite Hf.
      apply after_unlink_other, Hp.
  - intros err Hu Hne. rewrite Hrun.
    destruct (ttl_files w) as [|n names]; [contradiction|].
    rewrite (for_of_unlink_throws fl err n names _ Hu).
    eexists. split; [reflexivity|]. split; reflexivity.
Qed.

Lemma removeTtlLanguageFiles_outcome_witness :
  exists w',
    removeTtlLanguageFiles no_faults shipped_world = (Ok tt, w')
    /\ ttl_files w' = []
    /\ registered w' = Some "/p/grammars/ttl-0.json".
Proof.
  destruct (proj1 (removeTtlLanguageFiles_outcome no_faults shipped_world
                     eq_refl) (or_introl eq_refl))
    as (w' & H1 & _ & H2 & H3 & _).
  exists w'. split; [exact H1|]. split; [|exact H3].
  apply H2. intros p. reflexivity.
Defined.

(** ** Publications that find stale files, or fail half way *)

(** X13. A creation that succeeds leaves, of the generated files, the
    new one and those it found that the host failed to delete: when a
    publication resolves with a name, that name is the one made from
    the digest of the text, and the generated files of the directory
    are that one and the undeleted ones.  On a host that carries out
    every deletion the new file is the only one, however many there
    were before. *)
Theorem creation_clears_stale_files fl text w v w' :
  publish fl text w = (Resolved (Some v), w') ->
  v = makeTtlGrammarFilename (generateTtlSHA256 text)
  /\ (forall n,
        n ∈ ttl_files w' <->
        n = v
        \/ (n ∈ ttl_files w
            /\ unlink_fails fl (path_resolve (getGrammarPath w) n) = true))
  /\ (unlink_reliable fl -> ttl_files w' = [v]).
Proof.
  intros H.
  destruct (files w !! makeTtlGrammarFilenameAbsoulute w
                         (makeTtlGrammarFilename (generateTtlSHA256 text)))
    as [old|] eqn:E.
  { rewrite publish_again in H by (rewrite E; eauto). discriminate. }
  destruct (createGrammar_resolved _ (grammarRef w text) _ _ _ E H)
    as (Hv & -> & _).
  injection Hv as ->. split; [reflexivity|].
  split; [intros n; apply elem_of_ttl_created|].
  intros Hrel. apply NoDup_only; [apply NoDup_filter, NoDup_readdir|].
  intros n. rewrite elem_of_ttl_created, Hrel. split; [|auto].
  intros [?|[_ ?]]; [assumption|discriminate].
Qed.

Lemma creation_clears_stale_files_witness :
  ttl_files (publish no_faults textA shipped_world).2
  = [makeTtlGrammarFilename (generateTtlSHA256 textA)].
Proof.
  pose proof (publish_created no_faults textA shipped_world
                shipped_world_absent eq_refl (or_introl eq_refl) eq_refl
                eq_refl) as H.
  destruct (creation_clears_stale_files _ _ _ _ _ H) as (_ & _ & H2).
  rewrite H. apply H2. intros p. reflexivity.
Defined.

(** X14. The old files are asked to go before the new one is written:
    when the listing succeeds, the runtime takes the calls of
    [fs.unlink] (or there is nothing to delete) and the write fails,
    the publication rejects with the error of the write, the
    generated files left are those the host failed to delete (none on
    a host that carries out every deletion), and the scope is left
    without a grammar. *)
Theorem failed_write_leaves_nothing fl text w err :
  files w !! makeTtlGrammarFilenameAbsoulute w
               (makeTtlGrammarFilename (generateTtlSHA256 text)) = None ->
  readdir_error fl = None ->
  unlink_throws fl = None \/ ttl_files w = [] ->
  writeFile_error fl = Some err ->
  (publish fl text w).1 = Rejected err
  /\ (forall n,
        n ∈ ttl_files (publish fl text w).2 <->
        n ∈ ttl_files w
        /\ unlink_fails fl (path_resolve (getGrammarPath w) n) = true)
  /\ (unlink_reliable fl -> ttl_files (publish fl text w).2 = [])
  /\ registered (publish fl text w).2 = None.
Proof.
  intros Habs Hr Hu Hw.
  assert (Hrun : publish fl text w
                 = (Rejected err,
                    log (AddWarning err)
                      (write_attempted fl w (grammarRef w text)))).
  { rewrite (publish_steps _ _ _ Habs), Hr, Hw.
    destruct Hu as [-> | ->]; [reflexivity|].
    destruct (unlink_throws fl); reflexivity. }
  rewrite Hrun. cbn [fst snd]. split; [reflexivity|].
  assert (Hin : forall n,
    n ∈ ttl_files (log (AddWarning err)
                     (write_attempted fl w (grammarRef w text))) <->
    n ∈ ttl_files w
    /\ unlink_fails fl (path_resolve (getGrammarPath w) n) = true)
    by (intros n;
        rewrite (ttl_files_of
                   (log (AddWarning err)
                      (write_attempted fl w (grammarRef w text)))
                   w (after_unlink fl w) eq_refl eq_refl);
        apply elem_of_ttl_after_unlink).
  split; [exact Hin|]. split; [|reflexivity].
  intros Hrel. apply elem_of_nil_inv. intros n Hn.
  apply Hin in Hn as [_ Hn]. rewrite Hrel in Hn. discriminate.
Qed.

Lemma failed_write_leaves_nothing_witness :
  ttl_files (publish failing_write textA shipped_world).2 = []
  /\ registered (publish failing_write textA shipped_world).2 = None.
Proof.
  destruct (failed_write_leaves_nothing failing_write textA shipped_world
              "Error: ENOSPC" shipped_world_absent eq_refl
              (or_introl eq_refl) eq_refl) as (_ & _ & H3 & H4).
  split; [|exact H4]. apply H3. intros p. reflexivity.
Defined.

(** X15. A load that failed is not tried again for the same text: when
    the file was written and the registry refused it, the file stays
    and the scope has no grammar, and publishing the same text again,
    whatever the host would answer now, finds the file, resolves
    without a name and leaves the scope without a grammar. *)
Theorem failed_load_not_retried fl text w fl' :
  files w !! makeTtlGrammarFilenameAbsoulute w
               (makeTtlGrammarFilename (generateTtlSHA256 text)) = None ->
  readdir_error fl = None ->
  unlink_throws fl = None \/ ttl_files w = [] ->
  writeFile_error fl = None ->
  loadGrammar_error fl = true ->
  let w1 := (publish fl text w).2 in
  registered w1 = None
  /\ files w1 !! makeTtlGrammarFilenameAbsoulute w
                   (makeTtlGrammarFilename (generateTtlSHA256 text))
     = Some text
  /\ (publish fl' text w1).1 = Resolved None
  /\ registered (publish fl' text w1).2 = None.
Proof.
  intros Habs Hr Hu Hw Hl w1. subst w1.
  assert (Hrun : exists msg,
    publish fl text w
    = (Rejected msg,
       log (AddWarning msg) (load_attempted fl w (grammarRef w text)))).
  { rewrite (publish_steps _ _ _ Habs), Hr, Hw, Hl. cbv zeta.
    destruct Hu as [-> | ->]; [eauto|].
    destruct (unlink_throws fl); eauto. }
  destruct Hrun as [msg ->]. cbn [snd].
  set (w1 := log (AddWarning msg) (load_attempted fl w (grammarRef w text))).
  assert (Hfile : files w1 !! makeTtlGrammarFilenameAbsoulute w
                                (makeTtlGrammarFilename
                                   (generateTtlSHA256 text))
                  = Some text) by apply lookup_insert_eq.
  split; [reflexivity|]. split; [exact Hfile|].
  rewrite (publish_again fl' text w1); [split; reflexivity|].
  change (makeTtlGrammarFilenameAbsoulute w1
            (makeTtlGrammarFilename (generateTtlSHA256 text)))
    with (makeTtlGrammarFilenameAbsoulute w
            (makeTtlGrammarFilename (generateTtlSHA256 text))).
  rewrite Hfile. eauto.
Qed.

Lemma failed_load_not_retried_witness :
  (publish no_faults textA (publish failing_load textA shipped_world).2).1
  = Resolved None
  /\ registered
       (publish no_faults textA (publish failing_load textA shipped_world).2).2
     = None.
Proof.
  exact (proj2 (proj2 (failed_load_not_retried failing_load textA shipped_world
                         no_faults shipped_world_absent eq_refl
                         (or_introl eq_refl) eq_refl eq_refl))).
Defined.

(** ** File names *)

Lemma append_inv_tail t : forall s1 s2, s1 +:+ t = s2 +:+ t -> s1 = s2.
Proof.
  assert (Hlen : forall a s, t <> String a (s +:+ t)).
  { intros a s E. apply (f_equal String.length) in E.
    cbn [String.length] in E. rewrite length_app in E. lia. }
  induction s1 as [|a s1 IH]; intros [|b s2] E.
  - reflexivity.
  - rewrite app_nil, app_cons in E. destruct (Hlen _ _ E).
  - rewrite app_nil, app_cons in E. symmetry in E. destruct (Hlen _ _ E).
  - rewrite !app_cons in E. injection E as -> E. f_equal. apply IH, E.
Qed.

(** X16. Two digests that differ never share a file: the name made from
    a digest, resolved in the grammar directory, determines the
    digest. *)
Theorem ttl_path_injective w hash1 hash2 :
  hash1 <> hash2 ->
  makeTtlGrammarFilenameAbsoulute w (makeTtlGrammarFilename hash1)
  <> makeTtlGrammarFilenameAbsoulute w (makeTtlGrammarFilename hash2).
Proof.
  intros Hne E. apply Hne.
  apply path_resolve_inj in E. unfold makeTtlGrammarFilename in E.
  rewrite <- !append_assoc in E. apply append_inv_tail in E.
  change ("ttl-" +:+ hash1) with (String "t" (String "t" (String "l" (String "-" hash1)))) in E.
  change ("ttl-" +:+ hash2) with (String "t" (String "t" (String "l" (String "-" hash2)))) in E.
  congruence.
Qed.

Lemma ttl_path_injective_witness :
  makeTtlGrammarFilenameAbsoulute fresh_world (makeTtlGrammarFilename "00")
  <> makeTtlGrammarFilenameAbsoulute fresh_world (makeTtlGrammarFilename "01").
Proof.
  apply (ttl_path_injective fresh_world "00" "01"). discriminate.
Defined.

(** ** The scheduler over time *)

Lemma callbacks_world (fired : list (nat * nat)) : forall st,
  registry_grammars (foldl (fun st _ => configChanged st) st fired)
  = registry_grammars st
  /\ taggedTemplateGrammar (foldl (fun st _ => configChanged st) st fired)
     = taggedTemplateGrammar st
  /\ length (config_reads
               (trace (world (foldl (fun st _ => configChanged st) st fired))))
     = length (config_reads (trace (world st))) + length fired.
Proof.
  induction fired as [|t fired IH]; intros st; [cbn [foldl length]; auto|].
  cbn [foldl]. destruct (IH (configChanged st)) as (-> & -> & ->).
  rewrite configChanged_reads, List.length_app. cbn [length].
  unfold configChanged. destruct (createGrammarText _ _); (repeat split); lia.
Qed.

Lemma observe_keeps timeout st :
  world (observeTtlConfig timeout st) = world st
  /\ registry_grammars (observeTtlConfig timeout st) = registry_grammars st
  /\ taggedTemplateGrammar (observeTtlConfig timeout st)
     = taggedTemplateGrammar st
  /\ length (timers (observeTtlConfig timeout st)) <= S (length (timers st)).
Proof.
  unfold observeTtlConfig. destruct (configChangedTimer st) as [id|].
  - cbn. repeat split. rewrite List.length_app. cbn [length].
    pose proof (length_filter (fun t => negb (Nat.eqb t.1 id)) (timers st)).
    lia.
  - cbn. repeat split. rewrite List.length_app. cbn [length]. lia.
Qed.

Lemma filter_split {A} (f : A -> bool) (l : list A) :
  length (filter (fun x => f x) l) + length (filter (fun x => negb (f x)) l)
  = length l.
Proof.
  induction l as [|a l IH]; [reflexivity|].
  rewrite !filter_cons. cbv beta.
  destruct (f a); cbn [negb].
  - rewrite decide_True by exact I. rewrite decide_False by (intros []).
    cbn [length]. lia.
  - rewrite decide_False by (intros []). rewrite decide_True by exact I.
    cbn [length]. lia.
Qed.

Lemma tick_unfold st :
  let st0 := set_clock (S (now st)) (nextTimer st)
               (filter (fun x => negb (due (S (now st)) x)) (timers st)) st in
  tick st
  = foldl (fun st _ => configChanged st) st0
      (filter (fun x => due (S (now st)) x) (timers st)).
Proof. reflexivity. Qed.

(** X17. An instance never has two timeouts pending: when it has at
    most one, and that one is the one its field holds, this stays so
    through any calls of the scheduler, edits of the setting and
    passing of time. *)
Theorem one_timeout_pending inputs : forall st,
  owned st ->
  length (timers st) <= 1 ->
  length (timers (run inputs st)) <= 1 /\ owned (run inputs st).
Proof.
  induction inputs as [|i inputs IH]; intros st Hown Hlen; [auto|].
  change (run (i :: inputs) st) with (run inputs (step st i)).
  apply IH; [apply owned_step, Hown|].
  destruct i as [timeout|value|]; cbn [step].
  - destruct (observe_arms timeout st Hown) as (-> & _). reflexivity.
  - exact Hlen.
  - rewrite tick_unfold. cbv zeta.
    destruct (callbacks_keep_timers
                (filter (fun x => due (S (now st)) x) (timers st))
                (set_clock (S (now st)) (nextTimer st)
                   (filter (fun x => negb (due (S (now st)) x)) (timers st))
                   st)) as [-> _].
    cbn [timers set_clock].
    pose proof (length_filter (fun x => negb (due (S (now st)) x)) (timers st)).
    lia.
Qed.

Lemma one_timeout_pending_witness :
  length (timers (run (burst 3 five_gaps ++ quiet_before) idle_state)) <= 1.
Proof.
  refine (proj1 (one_timeout_pending (burst 3 five_gaps ++ quiet_before)
                   idle_state _ _)).
  - intros t Ht. inversion Ht.
  - cbn [timers idle_state length]. lia.
Defined.

Lemma step_budget st i :
  length (config_reads (trace (world (step st i))))
  + length (timers (step st i))
  <= length (config_reads (trace (world st))) + length (timers st)
     + (if is_observe i then 1 else 0).
Proof.
  destruct i as [timeout|value|]; cbn [step is_observe].
  - destruct (observe_keeps timeout st) as (-> & _ & _ & H). lia.
  - cbn [set_config world timers]. lia.
  - rewrite tick_unfold. cbv zeta.
    match goal with |- context [foldl _ ?s ?f] =>
      destruct (callbacks_world f s) as (_ & _ & ->);
      destruct (callbacks_keep_timers f s) as [-> _]
    end.
    cbn [world timers set_clock].
    pose proof (filter_split (due (S (now st))) (timers st)). lia.
Qed.

Lemma run_budget inputs : forall st,
  length (config_reads (trace (world (run inputs st))))
  + length (timers (run inputs st))
  <= length (config_reads (trace (world st))) + length (timers st)
     + count_observe inputs.
Proof.
  induction inputs as [|i inputs IH]; intros st.
  - cbn. lia.
  - change (run (i :: inputs) st) with (run inputs (step st i)).
    pose proof (IH (step st i)). pose proof (step_budget st i).
    assert (count_observe (i :: inputs)
            = (if is_observe i then 1 else 0) + count_observe inputs)
      by (destruct i; reflexivity).
    lia.
Qed.

(** X18. The callback never runs more often than the scheduler was
    called: over any inputs, the executions of the callback and the
    timeouts still pending are together at most those there were
    before plus the calls of the scheduler among the inputs. *)
Theorem callbacks_bounded inputs st :
  length (config_reads (trace (world (run inputs st))))
  + length (timers (run inputs st))
  <= length (config_reads (trace (world st))) + length (timers st)
     + count_observe inputs.
Proof. apply run_budget. Qed.

Lemma callbacks_faults (fired : list (nat * nat)) : forall st,
  faults (foldl (fun st _ => configChanged st) st fired) = faults st.
Proof.
  induction fired as [|t fired IH]; intros st; [reflexivity|].
  cbn [foldl]. rewrite IH. unfold configChanged.
  destruct (createGrammarText _ _); reflexivity.
Qed.

Lemma step_faults st i : faults (step st i) = faults st.
Proof.
  destruct i as [timeout|value|]; cbn [step].
  - unfold observeTtlConfig. destruct (configChangedTimer st); reflexivity.
  - reflexivity.
  - rewrite tick_unfold. cbv zeta. rewrite callbacks_faults. reflexivity.
Qed.

Lemma configChanged_at_most_one st :
  unlink_reliable (faults st) ->
  at_most_one_ttl (world st) -> at_most_one_ttl (world (configChanged st)).
Proof.
  intros Hrel H. unfold configChanged.
  assert (Hlog : forall e, at_most_one_ttl (log e (world st))).
  { intros e. unfold at_most_one_ttl.
    rewrite (ttl_files_eq (world st) (log e (world st))) by reflexivity.
    exact H. }
  destruct (createGrammarText _ _) as [err|text]; cbn [world set_world].
  - unfold at_most_one_ttl.
    rewrite (ttl_files_eq (log (ConfigGet (taggedTemplateGrammar st)) (world st)))
      by reflexivity.
    apply Hlog.
  - apply (publish_at_most_one (faults st) text); [exact Hrel|apply Hlog].
Qed.

Lemma callbacks_at_most_one (fired : list (nat * nat)) : forall st,
  unlink_reliable (faults st) ->
  at_most_one_ttl (world st) ->
  at_most_one_ttl (world (foldl (fun st _ => configChanged st) st fired)).
Proof.
  induction fired as [|t fired IH]; intros st Hrel H; [exact H|].
  cbn [foldl]. apply IH.
  - pose proof (callbacks_faults [t] st) as Hf. cbn [foldl] in Hf.
    rewrite Hf. exact Hrel.
  - apply configChanged_at_most_one; assumption.
Qed.

(** X19. On a host that carries out every deletion, the scheduler keeps
    the grammar directory tidy: when it holds at most one generated
    file, it still does after any calls of the scheduler, edits of
    the setting and passing of time, whatever else the host answers
    and whether or not the runtime takes the calls of [fs.unlink]. *)
Theorem run_at_most_one inputs : forall st,
  unlink_reliable (faults st) ->
  at_most_one_ttl (world st) -> at_most_one_ttl (world (run inputs st)).
Proof.
  induction inputs as [|i inputs IH]; intros st Hrel H; [exact H|].
  change (run (i :: inputs) st) with (run inputs (step st i)).
  apply IH; [rewrite step_faults; exact Hrel|].
  destruct i as [timeout|value|]; cbn [step].
  - destruct (observe_keeps timeout st) as (-> & _). exact H.
  - exact H.
  - rewrite tick_unfold. cbv zeta. apply callbacks_at_most_one; assumption.
Qed.

Lemma run_at_most_one_witness :
  at_most_one_ttl
    (world (run (burst 3 five_gaps ++ quiet_before ++ Tick :: quiet_after)
              idle_state)).
Proof.
  apply (run_at_most_one _ idle_state).
  - intros p. reflexivity.
  - unfold at_most_one_ttl. cbn [world idle_state].
    rewrite (ttl_files_empty fresh_world eq_refl). cbn [length]. lia.
Defined.

Lemma configChanged_stuck st :
  is_ok (createGrammarText (registry_grammars st) (taggedTemplateGrammar st))
  = false ->
  files (world (configChanged st)) = files (world st)
  /\ registered (world (configChanged st)) = registered (world st).
Proof.
  unfold configChanged.
  destruct (createGrammarText _ _); [split; reflexivity|discriminate].
Qed.

Lemma callbacks_stuck (fired : list (nat * nat)) : forall st,
  is_ok (createGrammarText (registry_grammars st) (taggedTemplateGrammar st))
  = false ->
  files (world (foldl (fun st _ => configChanged st) st fired))
  = files (world st)
  /\ registered (world (foldl (fun st _ => configChanged st) st fired))
     = registered (world st).
Proof.
  induction fired as [|t fired IH]; intros st H; [auto|].
  cbn [foldl]. destruct (configChanged_stuck st H) as [<- <-].
  apply IH.
  destruct (callbacks_world [t] st) as (Hr & Hc & _). cbn [foldl] in Hr, Hc.
  rewrite Hr, Hc. exact H.
Qed.

(** X20. A setting that does not build never reaches the disk or the
    registry: when the setting a state has and every value it is
    given during the inputs fail to build, the files and the
    registered grammar are after the inputs what they were before,
    however often the callback ran. *)
Theorem stuck_setting_harmless inputs : forall st,
  Forall (fun c => is_ok (createGrammarText (registry_grammars st) c) = false)
    (taggedTemplateGrammar st :: config_values inputs) ->
  files (world (run inputs st)) = files (world st)
  /\ registered (world (run inputs st)) = registered (world st).
Proof.
  induction inputs as [|i inputs IH]; intros st H; [auto|].
  change (run (i :: inputs) st) with (run inputs (step st i)).
  apply Forall_cons in H as [Hc Hv].
  destruct i as [timeout|value|]; cbn [step].
  - destruct (observe_keeps timeout st) as (Hw & Hr & Ht & _).
    rewrite <- Hw. apply IH. rewrite Hr, Ht. constructor; assumption.
  - apply (IH (set_config value st)). exact Hv.
  - rewrite tick_unfold. cbv zeta.
    match goal with |- context [foldl _ ?s ?f] =>
      destruct (callbacks_stuck f s Hc) as [Hf Hg];
      destruct (callbacks_world f s) as (Hr & Ht & _)
    end.
    cbn [world set_clock] in Hf, Hg. rewrite <- Hf, <- Hg.
    apply IH. rewrite Hr, Ht. constructor; assumption.
Qed.

Lemma stuck_setting_harmless_witness :
  files (world (run [ Observe 2; Tick; SetConfig [ ":" ]; Tick; Tick ]
                  stuck_state))
  = files (world stuck_state).
Proof.
  refine (proj1 (stuck_setting_harmless _ stuck_state _)).
  repeat constructor.
Defined.

(** ** The life of an instance *)

Lemma config_run inputs : forall st,
  taggedTemplateGrammar (run inputs st)
  = last_config (taggedTemplateGrammar st) inputs.
Proof.
  induction inputs as [|i inputs IH]; intros st; [reflexivity|].
  change (run (i :: inputs) st) with (run inputs (step st i)).
  rewrite IH. unfold last_config. cbn [foldl]. f_equal.
  destruct i as [timeout|value|]; cbn [step].
  - apply observe_keeps.
  - reflexivity.
  - rewrite tick_unfold. cbv zeta.
    match goal with |- context [foldl _ ?s ?f] =>
      destruct (callbacks_world f s) as (_ & -> & _)
    end.
    reflexivity.
Qed.

Lemma fire_after_quiet before after st id d :
  timers st = [(id, d)] ->
  d = now st + S (elapsed before) ->
  quiet before -> quiet after ->
  world (run before st) = world st
  /\ config_reads (trace (world (run (before ++ Tick :: after) st)))
     = config_reads (trace (world st))
       ++ [last_config (taggedTemplateGrammar st) before].
Proof.
  intros Ht Hd Hqb Hqa.
  destruct (quiet_pending before st id d Hqb Ht) as (B1 & B2 & B3 & B4);
    [lia|].
  set (s1 := run before st) in *.
  assert (Hs1 : world s1 = world st) by apply B4.
  split; [exact Hs1|].
  rewrite run_app. fold s1.
  change (run (Tick :: after) s1) with (run after (tick s1)).
  assert (Htick : tick s1
                  = configChanged (set_clock (S (now s1)) (nextTimer s1) [] s1)).
  { unfold tick. rewrite B1. cbn [filter list_filter]. unfold due. cbn [snd].
    assert (Hle : Nat.leb d (S (now s1)) = true) by (apply Nat.leb_le; lia).
    rewrite !decide_bool_decide. rewrite Hle. reflexivity. }
  rewrite Htick.
  destruct (quiet_idle after
              (configChanged (set_clock (S (now s1)) (nextTimer s1) [] s1))
              Hqa) as (A1 & _).
  { unfold configChanged. destruct (createGrammarText _ _); reflexivity. }
  rewrite A1, configChanged_reads. cbn [world taggedTemplateGrammar set_clock].
  rewrite Hs1. unfold s1. rewrite config_run. reflexivity.
Qed.

Lemma life_app hs1 hs2 i : life (hs1 ++ hs2) i = life hs2 (life hs1 i).
Proof. apply foldl_app. Qed.

Lemma life_unsubscribed hs : forall i,
  subscribed i = false ->
  state (life hs i) = run (inputs_of hs) (state i).
Proof.
  induction hs as [|h hs IH]; intros i Hi; [reflexivity|].
  change (life (h :: hs) i) with (life hs (live i h)).
  destruct h as [value| |]; cbn [inputs_of omap].
  - rewrite IH by (cbn; exact Hi). cbn [live state]. rewrite Hi. reflexivity.
  - rewrite IH by (cbn; exact Hi). reflexivity.
  - rewrite IH by reflexivity. reflexivity.
Qed.

Lemma inputs_of_quiet hs : quiet (inputs_of hs).
Proof.
  induction hs as [|h hs IH]; [reflexivity|].
  destruct h; cbn [inputs_of omap]; [| |exact IH];
    apply quiet_cons; split; auto.
Qed.

Lemma inputs_of_elapse before after :
  inputs_of (before ++ Elapse :: after)
  = inputs_of before ++ Tick :: inputs_of after.
Proof. unfold inputs_of. rewrite omap_app. reflexivity. Qed.

Lemma inputs_of_no_observe hs : count_observe (inputs_of hs) = 0.
Proof. induction hs as [|h hs IH]; [reflexivity|]. destruct h; exact IH. Qed.

(** X21. [destroy] does not cancel the publication that is pending.
    An instance constructed to observe the setting, in a host with no
    timeout pending, and destroyed at once, still runs the callback
    once: at the ten thousandth millisecond after its construction,
    on the setting as it is then, edits made after the destruction
    included.  Before that millisecond the host sees nothing, and
    nothing more happens after it. *)
Theorem destroy_keeps_pending host before after :
  timers host = [] ->
  S (elapses before) = observe_delay ->
  let i := destroy (constructor true host) in
  world (state (life before i)) = world host
  /\ config_reads (trace (world (state (life (before ++ Elapse :: after) i))))
     = config_reads (trace (world host))
       ++ [last_value (taggedTemplateGrammar host) before].
Proof.
  intros Ht He i.
  assert (Hown : owned (set_configChangedTimer None host)).
  { intros t Hin. cbn [timers set_configChangedTimer] in Hin.
    rewrite Ht in Hin. inversion Hin. }
  destruct (observe_arms observe_delay (set_configChangedTimer None host) Hown)
    as (A1 & _ & A3 & A4 & A5 & _).
  rewrite !life_unsubscribed by reflexivity.
  change (state i)
    with (observeTtlConfig observe_delay (set_configChangedTimer None host)).
  set (s0 := observeTtlConfig observe_delay (set_configChangedTimer None host)) in *.
  rewrite inputs_of_elapse.
  destruct (fire_after_quiet (inputs_of before) (inputs_of after) s0
              _ _ A1) as [F1 F2].
  - rewrite A3. cbn [now set_configChangedTimer].
    change (elapsed (inputs_of before)) with (elapses before). rewrite He.
    reflexivity.
  - apply inputs_of_quiet.
  - apply inputs_of_quiet.
  - rewrite F1, F2, A4, A5. split; reflexivity.
Qed.

Lemma destroy_keeps_pending_witness :
  config_reads
    (trace (world (state
       (life ((Changed [ "b:source.js" ] :: repeat Elapse (pred observe_delay))
              ++ Elapse :: [ Changed [ "c:source.js" ]; Elapse ])
          (destroy (constructor true idle_state))))))
  = [ [ "b:source.js" ] ].
Proof.
  assert (Hn : forall n c, elapses (repeat Elapse n) = n
                           /\ last_value c (repeat Elapse n) = c).
  { induction n as [|n IH]; intros c; [split; reflexivity|].
    destruct (IH c) as [H1 H2]. split.
    - change (elapses (repeat Elapse (S n)))
        with (S (elapses (repeat Elapse n))).
      rewrite H1. reflexivity.
    - exact H2. }
  assert (He : forall v hs, elapses (Changed v :: hs) = elapses hs)
    by reflexivity.
  assert (Hl : forall c v hs, last_value c (Changed v :: hs) = last_value v hs)
    by reflexivity.
  destruct (destroy_keeps_pending idle_state
              (Changed [ "b:source.js" ] :: repeat Elapse (pred observe_delay))
              [ Changed [ "c:source.js" ]; Elapse ] eq_refl) as [_ H].
  - rewrite He, (proj1 (Hn (pred observe_delay) [])). reflexivity.
  - rewrite H, Hl, (proj2 (Hn (pred observe_delay) [ "b:source.js" ])).
    reflexivity.
Defined.

(** X22. An instance constructed without the request to observe the
    setting does nothing by itself: in a host with no timeout
    pending, whatever edits are made and however much time passes,
    the host sees no call and no timeout is ever set. *)
Theorem unobserved_instance_idle host hs :
  timers host = [] ->
  world (state (life hs (constructor false host))) = world host
  /\ timers (state (life hs (constructor false host))) = [].
Proof.
  intros Ht. rewrite life_unsubscribed by reflexivity.
  cbn [constructor state].
  destruct (quiet_idle (inputs_of hs) (set_configChangedTimer None host)
              (inputs_of_quiet hs) Ht) as (H & _).
  split; [exact H|].
  pose proof (run_budget (inputs_of hs)
                (set_configChangedTimer None host)) as Hb.
  rewrite H, inputs_of_no_observe in Hb.
  cbn [world timers set_configChangedTimer] in Hb.
  assert (H0 : length (timers host) = 0) by (rewrite Ht; reflexivity).
  destruct (timers (run (inputs_of hs) (set_configChangedTimer None host)))
    as [|x l]; [reflexivity|cbn [length] in Hb; lia].
Qed.

Lemma unobserved_instance_idle_witness :
  world (state (life [ Changed [ "b:source.js" ]; Elapse; Elapse ]
                  (constructor false idle_state)))
  = fresh_world.
Proof.
  exact (proj1 (unobserved_instance_idle idle_state
                  [ Changed [ "b:source.js" ]; Elapse; Elapse ] eq_refl)).
Defined.
